(** * jsonwebtoken-lru-cache: a claims-aware expiring cache of JWT verifications

    Shallow embedding of [src/index.js] (class [JwtLruCache]) and the
    properties of its specification.

    The JavaScript class keeps its state in [this.cache] (an [lru-cache]
    instance), reads the global clock [Date.now()] and calls the
    [jsonwebtoken] package.  Here the mutable state is threaded explicitly
    through a small state-and-exception monad [M]; the two collaborators
    ([jsonwebtoken] and [object-sizeof]) are interfaces (type classes), so
    every theorem of the development holds for any decoder, any verifier
    and any size measure. *)

From Stdlib Require Import ZArith List String Bool Lia.
Import ListNotations.
Local Open Scope string_scope.
Local Open Scope list_scope.
Local Open Scope Z_scope.

Set Implicit Arguments.

(** ** JavaScript values that flow through the class *)

(** A JavaScript error object: [name] and [message]. *)
Record JsError := mkError { err_name : string; err_message : string }.

(** [String(err)], i.e. [Error.prototype.toString]: "name: message". *)
Definition toString (e : JsError) : string :=
  (err_name e ++ ": " ++ err_message e)%string.

(** [Error(x)]: a fresh generic error whose message is [String(x)]
    (line 149, [throw Error(error)]). *)
Definition Error_ (e : JsError) : JsError := mkError "Error" (toString e).

Definition TypeError (msg : string) : JsError := mkError "TypeError" msg.

(** Registered claims are integer seconds since the epoch; the remaining
    claims are carried along untouched. *)
Record Claims := mkClaims {
  nbf : option Z;
  exp : option Z;
  other : list (string * string)
}.

(** The payload of a decoded token: any JSON value.  For [typeof], strings,
    numbers and booleans are not ['object']; [null] and objects are. *)
Inductive Payload :=
| PStr (s : string)
| PNum (n : Z)
| PBool (b : bool)
| PNull
| PObj (c : Claims).

(** [decode(token, { complete: true })] returns [null] or this object. *)
Record Decoded := mkDecoded {
  header : string;
  payload : Payload;
  signature : string
}.

(** Cache-wide options given to the constructor ([this.options]).  Absent
    keys are [undefined]: [None] for [clockTolerance], [false] for the two
    flags (only their truthiness is read).  [audience] stands for the
    options forwarded opaquely to the verifier. *)
Record Options := mkOptions {
  clockTolerance : option Z;
  ignoreNotBefore : bool;
  ignoreExpiration : bool;
  audience : option string
}.

(** The second positional argument [complete] as a caller may pass it. *)
Inductive Arg :=
| AUndefined
| ABool (b : bool)
| AString (s : string)
| AObject (o : Options).

(** [typeof(x) === 'string'] *)
Definition is_string (a : Arg) : bool :=
  match a with AString _ => true | _ => false end.

Definition is_boolean (a : Arg) : bool :=
  match a with ABool _ => true | _ => false end.

(** JavaScript truthiness of the argument, as used by [complete ? _ : _]. *)
Definition truthy (a : Arg) : bool :=
  match a with
  | AUndefined => false
  | ABool b => b
  | AString s => negb (String.eqb s "")
  | AObject _ => true
  end.

(** The value stored under a token: the array [[error, result]]. *)
Definition Entry : Type := option JsError * Decoded.

(** [complete ? result : result.payload] *)
Inductive Shaped :=
| SDecoded (d : Decoded)
| SPayload (p : Payload).

Definition shape (complete : Arg) (d : Decoded) : Shaped :=
  if truthy complete then SDecoded d else SPayload (payload d).

(** The object [{ error, result }] returned by the private [verify]. *)
Record Out := mkOut { error : option JsError; result : Shaped }.

(** ** Collaborators *)

(** The [jsonwebtoken] package: [decode] does not look at the signature and
    answers [null] ([None]) for a string that is not a token; [verifySync]
    reads the clock (in milliseconds) and either throws an error or returns
    a value. *)
Class Verifier := {
  decode : string -> option Decoded;
  verifySync : string -> string -> option Options -> Z -> JsError + Payload
}.

(** The [object-sizeof] package. *)
Class SizeOf := { sizeOf : Entry -> Z }.

(** ** The size-bounded store *)

Module Lru.

(** Modelled from the spec: the BoundedLruStore collaborator (the
    [lru-cache] package, options [max] and [length]), absent from the
    sources.  A byte-budgeted, least-recently-used map with an optional
    time-to-live per entry, counted in milliseconds from the moment of
    [set]; entries are kept most recently used first. *)
Record Hit := mkHit {
  key : string;
  value : Entry;
  length : Z;
  now : Z;
  maxAge : Z
}.

(** Modelled from the spec: the store, its byte budget [max] and its
    entries. *)
Record t := mkLru { max : Z; items : list Hit }.

(** Modelled from the spec: expiry of an entry by its time-to-live.  As in
    the [lru-cache] package, an entry is stale once more than [maxAge]
    milliseconds have passed since it was set ([diff > maxAge]); an entry
    without a time-to-live ([maxAge = 0]) never is. *)
Definition isStale (date_now : Z) (h : Hit) : bool :=
  if maxAge h =? 0 then false else maxAge h <? date_now - now h.

(** Modelled from the spec: the entry held under a key, stale or not. *)
Fixpoint lookup (k : string) (l : list Hit) : option Hit :=
  match l with
  | [] => None
  | h :: rest => if String.eqb (key h) k then Some h else lookup k rest
  end.

(** Modelled from the spec: removal of the entry held under a key. *)
Definition del (k : string) (l : list Hit) : list Hit :=
  filter (fun h => negb (String.eqb (key h) k)) l.

(** Modelled from the spec: the resident byte weight of all entries. *)
Definition total (l : list Hit) : Z :=
  fold_right (fun h acc => length h + acc) 0 l.

(** Modelled from the spec: eviction on budget overflow.  Least recently
    used entries are dropped while the budget is exceeded; the argument
    lists the entries least recently used first. *)
Fixpoint trim_lru (budget : Z) (l : list Hit) : list Hit :=
  match l with
  | [] => []
  | _ :: rest => if budget <? total l then trim_lru budget rest else l
  end.

(** Modelled from the spec: the same on the list kept most recently used
    first. *)
Definition trim (budget : Z) (l : list Hit) : list Hit :=
  rev (trim_lru budget (rev l)).

(** Modelled from the spec: [has(key)], true iff an entry is held and is
    not stale.  The store is left untouched. *)
Definition has (date_now : Z) (k : string) (c : t) : bool :=
  match lookup k (items c) with
  | None => false
  | Some h => negb (isStale date_now h)
  end.

(** Modelled from the spec: [get(key)].  A stale entry is dropped and
    [undefined] returned; a live one becomes the most recently used. *)
Definition get (date_now : Z) (k : string) (c : t) : option Entry * t :=
  match lookup k (items c) with
  | None => (None, c)
  | Some h =>
      if isStale date_now h
      then (None, mkLru (max c) (del k (items c)))
      else (Some (value h), mkLru (max c) (h :: del k (items c)))
  end.

(** Modelled from the spec: [set(key, value, maxAge)].  [ttl] is the third
    argument ([null] or a number; [0] counts as none).  An entry heavier
    than the budget is not kept (and removes the one it would replace);
    otherwise it becomes the most recently used and the least recently
    used entries are evicted until the budget holds. *)
Definition set (len : Z) (date_now : Z) (k : string) (v : Entry)
    (ttl : option Z) (c : t) : t :=
  let age := match ttl with Some m => m | None => 0 end in
  let stamp := if age =? 0 then 0 else date_now in
  let hit := mkHit k v len stamp age in
  match lookup k (items c) with
  | Some _ =>
      if max c <? len then mkLru (max c) (del k (items c))
      else if isStale date_now hit
      then mkLru (max c) (trim (max c) (del k (items c)))
      else mkLru (max c) (trim (max c) (hit :: del k (items c)))
  | None =>
      if max c <? len then c
      else mkLru (max c) (trim (max c) (hit :: items c))
  end.

(** Modelled from the spec: [dump()], the live entries as [{k, v, e}]
    with [e] the scheduled expiry, [now + maxAge]. *)
Definition dump (date_now : Z) (c : t) : list (string * Entry * Z) :=
  map (fun h => (key h, value h, now h + maxAge h))
      (filter (fun h => negb (isStale date_now h)) (items c)).

End Lru.

(** ** The cache object and the world around it *)

(** The fields of a [JwtLruCache] instance. *)
Record JwtLruCache := mkCache {
  secretOrPrivateKey : string;
  options : option Options;
  cache : Lru.t
}.

(** [this], the global clock [Date.now()] in milliseconds, and the log of
    the tokens handed to the verifier (most recent first). *)
Record World := mkWorld {
  this : JwtLruCache;
  Date_now : Z;
  verifier_calls : list string
}.

Definition with_cache (c : Lru.t) (w : World) : World :=
  mkWorld (mkCache (secretOrPrivateKey (this w)) (options (this w)) c)
          (Date_now w) (verifier_calls w).

(** Time passes: the clock moves by [dt] milliseconds. *)
Definition advance (dt : Z) (w : World) : World :=
  mkWorld (this w) (Date_now w + dt) (verifier_calls w).

(** ** State and exceptions *)

Inductive Completion (A : Type) :=
| Normal (a : A)
| Throw (e : JsError).
Arguments Normal {A} a.
Arguments Throw {A} e.

Definition M (A : Type) : Type := World -> Completion A * World.

Definition ret {A} (a : A) : M A := fun w => (Normal a, w).
Definition throw {A} (e : JsError) : M A := fun w => (Throw e, w).
Definition bind {A B} (m : M A) (f : A -> M B) : M B :=
  fun w => match m w with
           | (Normal a, w') => f a w'
           | (Throw e, w') => (Throw e, w')
           end.
Definition gets {A} (f : World -> A) : M A := fun w => (Normal (f w), w).
Definition modify (f : World -> World) : M unit := fun w => (Normal tt, f w).

Notation "x <- m ;; k" := (bind m (fun x => k))
  (at level 61, m at next level, right associativity).
Notation "m ;;; k" := (bind m (fun _ => k))
  (at level 61, right associativity).

(** [try { m } catch (err) { h err }] *)
Definition try_catch {A} (m : M A) (h : JsError -> M A) : M A :=
  fun w => match m w with
           | (Normal a, w') => (Normal a, w')
           | (Throw e, w') => h e w'
           end.

(** What promise mode hands back: a promise that is already resolved (cache
    hit, line 93), or the chain of lines 76-79 once the verifier has
    answered, which still has to write the entry and then resolves with the
    outcome.  The write happens when the chain is run, see [settle]. *)
Inductive Promise :=
| Resolved (out : Out)
| Settling (token : string) (v : Entry) (ttl : option Z) (out : Out).

(** The private [verify] returns an object or a promise of one. *)
Inductive Returned :=
| Value (out : Out)
| Deferred (p : Promise).

(** The state of a call of the async function [verifyAsync]: its body threw
    before the first [await], or it awaits the promise of the private
    [verify]. *)
Inductive AsyncCall :=
| Rejected (e : JsError)
| Awaiting (p : Promise).

Definition usage_error : JsError :=
  mkError "Error"
    "You can only set secretOrPrivateKey in the constructor, not in the second param to verify().".

(** [new JwtLruCache(sizeInBytes, secretOrPrivateKey, options)] *)
Definition constructor (sizeInBytes : Z) (secret : string)
    (opts : option Options) : JwtLruCache :=
  mkCache secret opts (Lru.mkLru sizeInBytes []).

(** A fresh cache at clock [t], the verifier not yet called. *)
Definition new_world (sizeInBytes : Z) (secret : string)
    (opts : option Options) (t : Z) : World :=
  mkWorld (constructor sizeInBytes secret opts) t [].

Section Cache.

Context {V : Verifier} {S : SizeOf}.

(** [length: (val, key) => 2 + sizeOf(val) + key.length] *)
Definition entry_length (val : Entry) (k : string) : Z :=
  2 + sizeOf val + Z.of_nat (String.length k).

Definition cache_has (token : string) : M bool :=
  gets (fun w => Lru.has (Date_now w) token (cache (this w))).

Definition cache_get (token : string) : M (option Entry) :=
  fun w => let (v, c) := Lru.get (Date_now w) token (cache (this w)) in
           (Normal v, with_cache c w).

Definition cache_set (token : string) (val : Entry) (ttl : option Z)
    : M unit :=
  modify (fun w =>
    with_cache (Lru.set (entry_length val token) (Date_now w) token val ttl
                        (cache (this w))) w).

(** [verifySync(token, this.secretOrPrivateKey, this.options)]: the call is
    logged, the clock read, and the verifier's error thrown. *)
Definition call_verifySync (token : string) : M Payload :=
  fun w =>
    let w' := mkWorld (this w) (Date_now w) (token :: verifier_calls w) in
    match verifySync token (secretOrPrivateKey (this w)) (options (this w))
                     (Date_now w) with
    | inl e => (Throw e, w')
    | inr p => (Normal p, w')
    end.

(** [clockTolerance = 0] as a destructuring default of [this.options || {}] *)
Definition tolerance (opts : option Options) : Z :=
  match opts with
  | Some o => match clockTolerance o with Some t => t | None => 0 end
  | None => 0
  end.

Definition flag (f : Options -> bool) (opts : option Options) : bool :=
  match opts with Some o => f o | None => false end.

(** Truthiness of a claim that is [undefined] or a number. *)
Definition present (claim : option Z) : bool :=
  match claim with Some n => negb (n =? 0) | None => false end.

Definition number (claim : option Z) : Z :=
  match claim with Some n => n | None => 0 end.

(** The private method [[getMaxAge]], keyed by the symbol of that name
    (lines 43-56). *)
Definition sym_getMaxAge (payload : Payload) : M (option Z) :=
  match payload with
  | PStr _ | PNum _ | PBool _ => ret None
  | PNull => throw (TypeError "Cannot destructure property 'nbf' of null.")
  | PObj c =>
      opts <- gets (fun w => options (this w)) ;;
      date <- gets Date_now ;;
      let clockTolerance := tolerance opts in
      let currentTime := date / 1000 in
      if negb (flag ignoreNotBefore opts) && present (nbf c)
         && (currentTime + clockTolerance <? number (nbf c))
      then ret (Some ((number (nbf c) - clockTolerance - currentTime) * 1000))
      else if negb (flag ignoreExpiration opts) && present (exp c)
              && (currentTime - clockTolerance <? number (exp c))
      then ret (Some ((number (exp c) + clockTolerance - currentTime) * 1000))
      else ret None
  end.

(** The private method [[verify]], keyed by the symbol of that name
    (lines 65-98). *)
Definition sym_verify (token : string) (complete : Arg) (promise : bool)
    : M Returned :=
  if is_string complete then throw usage_error
  else
    hit <- cache_has token ;;
    if negb hit then
      match decode token with
      | None => throw (TypeError "Cannot read property 'payload' of null")
      | Some result =>
          maxAge <- sym_getMaxAge (payload result) ;;
          error <- try_catch (call_verifySync token ;;; ret None)
                             (fun err => ret (Some err)) ;;
          let out := mkOut error (shape complete result) in
          if promise
          then ret (Deferred (Settling token (error, result) maxAge out))
          else cache_set token (error, result) maxAge ;;; ret (Value out)
      end
    else
      stored <- cache_get token ;;
      match stored with
      | None => throw (TypeError "undefined is not iterable")
      | Some (error, result) =>
          let out := mkOut error (shape complete result) in
          if promise then ret (Deferred (Resolved out)) else ret (Value out)
      end.

(** Running the rest of a promise of the private [verify]: the pending
    write of line 78, then the outcome of line 79. *)
Definition settle (p : Promise) : M Out :=
  match p with
  | Resolved out => ret out
  | Settling token val ttl out => cache_set token val ttl ;;; ret out
  end.

(** [has(token)] (lines 106-108) *)
Definition has (token : string) : M bool := cache_has token.

(** [getMaxAge(token)] (lines 117-121) *)
Definition getMaxAge (token : string) : M (option Z) :=
  date <- gets Date_now ;;
  c <- gets (fun w => cache (this w)) ;;
  match filter (fun e => String.eqb (fst (fst e)) token) (Lru.dump date c) with
  | [] => ret None
  | entry :: _ => ret (Some ((snd entry - date) / 1000))
  end.

(** [verifyAsync(token, complete)] (lines 130-135), up to its [await]. *)
Definition verifyAsync (token : string) (complete : Arg)
    : World -> AsyncCall * World :=
  fun w => match sym_verify token complete true w with
           | (Normal (Deferred p), w') => (Awaiting p, w')
           | (Normal (Value out), w') => (Awaiting (Resolved out), w')
           | (Throw e, w') => (Rejected e, w')
           end.

(** The promise returned by [verifyAsync], settled: [Normal] when it
    fulfils, [Throw] when it rejects. *)
Definition await (call : AsyncCall) : M Shaped :=
  match call with
  | Rejected e => throw e
  | Awaiting p =>
      out <- settle p ;;
      match error out with
      | Some e => throw e
      | None => ret (result out)
      end
  end.

(** [verify(token, complete)] without a callback (lines 147-151).  With
    [promise = false] the private method only ever returns a [Value]. *)
Definition verify (token : string) (complete : Arg) : M Shaped :=
  r <- sym_verify token complete false ;;
  match r with
  | Value out | Deferred (Resolved out) | Deferred (Settling _ _ _ out) =>
      match error out with
      | Some e => throw (Error_ e)
      | None => ret (result out)
      end
  end.

(** [verify(token, complete, callback)] (line 146): the call itself, which
    leaves a promise behind, ... *)
Definition verify_callback (token : string) (complete : Arg) : M Promise :=
  r <- sym_verify token complete true ;;
  match r with
  | Deferred p => ret p
  | Value out => ret (Resolved out)
  end.

(** ... and the arguments [callback(error, result)] receives once that
    promise has settled. *)
Definition callback_args (p : Promise) : M (option JsError * Shaped) :=
  out <- settle p ;;
  ret (error out, result out).

(** [await cache.verifyAsync(token, complete)] with nothing in between. *)
Definition verifyAsync_awaited (token : string) (complete : Arg) : M Shaped :=
  fun w => let (call, w') := verifyAsync token complete w in await call w'.

End Cache.

(** ** A small concrete world

    A finite stand-in for [jsonwebtoken], shaped after the fixtures of
    [src/__test__/index.test.js]: a token is known by its name, carries the
    secret it was signed with in place of a signature, and is checked the
    way the package checks it (signature, then [nbf], then [exp], on the
    clock in whole seconds). *)
Module Jwt.

Definition secret : string := "foobar".
Definition secretWrong : string := "wrong".

Definition success : list (string * string) := [("success", "true")].

(** token |-> (signing secret, payload) *)
Definition tokens : list (string * (string * Payload)) :=
  [ ("jwtNoExpiration", (secret, PObj (mkClaims None None success)));
    ("jwtNbfPast", (secret, PObj (mkClaims (Some 900) None success)));
    ("jwtNbfFuture", (secret, PObj (mkClaims (Some 1100) None success)));
    ("jwtExpPast", (secret, PObj (mkClaims None (Some 900) success)));
    ("jwtExpFuture", (secret, PObj (mkClaims None (Some 1100) success)));
    ("jwtNbfExpFuture",
      (secret, PObj (mkClaims (Some 1100) (Some 1200) success)));
    ("jwtExpNext", (secret, PObj (mkClaims None (Some 1001) success)));
    ("jwtExpZero", (secret, PObj (mkClaims None (Some 0) success)));
    ("jwtWrongSecret", (secretWrong, PObj (mkClaims None None success)));
    ("jwtString", (secret, PStr "hi"));
    ("jwtNull", (secret, PNull)) ].

Fixpoint assoc {A} (k : string) (l : list (string * A)) : option A :=
  match l with
  | [] => None
  | (k', a) :: rest => if String.eqb k' k then Some a else assoc k rest
  end.

Definition jwt_decode (token : string) : option Decoded :=
  match assoc token tokens with
  | Some (signed_with, p) => Some (mkDecoded "HS256" p signed_with)
  | None => None
  end.

Definition JsonWebTokenError (msg : string) : JsError :=
  mkError "JsonWebTokenError" msg.
Definition NotBeforeError : JsError := mkError "NotBeforeError" "jwt not active".
Definition TokenExpiredError : JsError :=
  mkError "TokenExpiredError" "jwt expired".

Definition check_claims (c : Claims) (opts : option Options)
    (clockTimestamp : Z) : option JsError :=
  let tol := tolerance opts in
  match nbf c with
  | Some n =>
      if negb (flag ignoreNotBefore opts) && (clockTimestamp + tol <? n)
      then Some NotBeforeError
      else match exp c with
           | Some e =>
               if negb (flag ignoreExpiration opts)
                  && (e + tol <=? clockTimestamp)
               then Some TokenExpiredError else None
           | None => None
           end
  | None =>
      match exp c with
      | Some e =>
          if negb (flag ignoreExpiration opts) && (e + tol <=? clockTimestamp)
          then Some TokenExpiredError else None
      | None => None
      end
  end.

Definition jwt_verify (token key : string) (opts : option Options)
    (date_now : Z) : JsError + Payload :=
  match jwt_decode token with
  | None => inl (JsonWebTokenError "jwt malformed")
  | Some d =>
      if negb (String.eqb (signature d) key)
      then inl (JsonWebTokenError "invalid signature")
      else match payload d with
           | PObj c =>
               match check_claims c opts (date_now / 1000) with
               | Some e => inl e
               | None => inr (payload d)
               end
           | p => inr p
           end
  end.

#[export] Instance jsonwebtoken : Verifier :=
  {| decode := jwt_decode; verifySync := jwt_verify |}.

(** A verifier that accepts every token and returns a value of its own. *)
Definition stamping : Verifier :=
  {| decode := jwt_decode;
     verifySync := fun _ _ _ _ => inr (PStr "verified") |}.

Definition strlen (s : string) : Z := Z.of_nat (String.length s).

Definition size_payload (p : Payload) : Z :=
  match p with
  | PStr s => 2 * strlen s
  | PNum _ => 8
  | PBool _ => 4
  | PNull => 0
  | PObj c =>
      (match nbf c with Some _ => 14 | None => 0 end)
      + (match exp c with Some _ => 14 | None => 0 end)
      + fold_right (fun kv acc => 2 * (strlen (fst kv) + strlen (snd kv)) + acc)
                   0 (other c)
  end.

(** Two bytes a character, eight a number, four a boolean. *)
Definition size_entry (e : Entry) : Z :=
  (match fst e with
   | Some err => 2 * (strlen (err_name err) + strlen (err_message err))
   | None => 0
   end)
  + 2 * strlen (header (snd e)) + size_payload (payload (snd e))
  + 2 * strlen (signature (snd e)).

#[export] Instance object_sizeof : SizeOf := {| sizeOf := size_entry |}.

(** [Date.now = () => 1000000] and [new JwtLru(1024*1024, secret)] *)
Definition dateOrig : Z := 1000000.
Definition lru : World := new_world (1024 * 1024) secret None dateOrig.

(** A cache of one byte: no entry fits. *)
Definition tiny : World := new_world 1 secret None dateOrig.

End Jwt.

(** ** Derived notions used by the statements *)

Section Notions.

Context {V : Verifier} {S : SizeOf}.

(** The live entry the store holds for a token, if any. *)
Definition stored (token : string) (w : World) : option Lru.Hit :=
  match Lru.lookup token (Lru.items (cache (this w))) with
  | Some h => if Lru.isStale (Date_now w) h then None else Some h
  | None => None
  end.

(** The instant, in milliseconds, that [[getMaxAge]] aims at: it measures
    its duration from [currentTime], the clock in whole seconds. *)
Definition deadline (payload : Payload) : M (option Z) :=
  ttl <- sym_getMaxAge payload ;;
  date <- gets Date_now ;;
  ret (match ttl with
       | Some d => Some (date / 1000 * 1000 + d)
       | None => None
       end).

(** The TTL derivation as the specification words it (section 4.1), with
    [now] in whole seconds and the result in milliseconds. *)
Definition computeDeadline_spec (claims : Payload) (opts : option Options)
    (now : Z) : option Z :=
  match claims with
  | PObj c =>
      match nbf c, exp c with
      | Some n, _ =>
          if negb (flag ignoreNotBefore opts) && (now + tolerance opts <? n)
          then Some ((n - tolerance opts - now) * 1000)
          else match exp c with
               | Some e =>
                   if negb (flag ignoreExpiration opts)
                      && (now - tolerance opts <? e)
                   then Some ((e + tolerance opts - now) * 1000)
                   else None
               | None => None
               end
      | None, Some e =>
          if negb (flag ignoreExpiration opts) && (now - tolerance opts <? e)
          then Some ((e + tolerance opts - now) * 1000)
          else None
      | None, None => None
      end
  | _ => None
  end.

(** The world after the verifier has been called for [token]. *)
Definition logged (token : string) (w : World) : World :=
  mkWorld (this w) (Date_now w) (token :: verifier_calls w).

(** The world after a hit on [h]: [h] is the most recently used entry. *)
Definition touched (token : string) (h : Lru.Hit) (w : World) : World :=
  with_cache (Lru.mkLru (Lru.max (cache (this w)))
                (h :: Lru.del token (Lru.items (cache (this w))))) w.

(** The world after the entry of a miss has been written. *)
Definition written (token : string) (val : Entry) (ttl : option Z)
    (w : World) : World :=
  with_cache (Lru.set (entry_length val token) (Date_now w) token val ttl
                      (cache (this w))) w.

Definition outcome (complete : Arg) (val : Entry) : Out :=
  mkOut (fst val) (shape complete (snd val)).

(** How each calling convention hands over an outcome. *)
Definition raised (o : Out) : Completion Shaped :=
  match error o with Some e => Throw (Error_ e) | None => Normal (result o) end.

Definition rejected (o : Out) : Completion Shaped :=
  match error o with Some e => Throw e | None => Normal (result o) end.

(** Every entry the store holds for a token carries the decode of that
    token. *)
Definition decodes (c : Lru.t) : Prop :=
  Forall (fun h => decode (Lru.key h) = Some (snd (Lru.value h)))
         (Lru.items c).

(** A promise of the private [verify] for [token]: its outcome, and the
    entry it still has to write, come from the decode of [token]. *)
Definition promise_for (token : string) (complete : Arg) (p : Promise)
    : Prop :=
  exists err d,
    decode token = Some d /\
    (p = Resolved (mkOut err (shape complete d)) \/
     exists ttl, p = Settling token (err, d) ttl
                              (mkOut err (shape complete d))).

(** The worlds a program can bring about: construct the cache, let time
    pass, call the private [verify] in either mode, and run the rest of a
    promise obtained earlier. *)
Inductive Reachable : World -> Prop :=
| R_new size secret opts t : Reachable (new_world size secret opts t)
| R_tick w dt : Reachable w -> 0 <= dt -> Reachable (advance dt w)
| R_verify w token complete promise :
    Reachable w -> Reachable (snd (sym_verify token complete promise w))
| R_settle w0 w token complete p :
    Reachable w0 ->
    fst (sym_verify token complete true w0) = Normal (Deferred p) ->
    Reachable w -> Reachable (snd (settle p w)).

(** The error the [try]/[catch] around the verifier leaves in [error]. *)
Definition caught (token : string) (w : World) : option JsError :=
  match verifySync token (secretOrPrivateKey (this w)) (options (this w))
                   (Date_now w) with
  | inl e => Some e
  | inr _ => None
  end.

(** The entry a verification of [token] would write now fits the byte
    budget of the cache. *)
Definition fits (token : string) (w : World) : Prop :=
  forall d, decode token = Some d ->
    entry_length (caught token w, d) token <= Lru.max (cache (this w)).

End Notions.

(** ** Invariants of the store as the cache fills it *)

Section StoreInvariants.

Context {S : SizeOf}.

(** No two entries are held under one token. *)
Definition unique_keys (c : Lru.t) : Prop :=
  NoDup (map Lru.key (Lru.items c)).

(** Each entry is weighed by the [length] function the constructor hands
    to the store (line 30). *)
Definition weighed (c : Lru.t) : Prop :=
  Forall (fun h => Lru.length h = entry_length (Lru.value h) (Lru.key h))
         (Lru.items c).


End StoreInvariants.

Unset Implicit Arguments.

(** * Properties *)

(** ** The store *)

Section LruFacts.

Import Lru.

Lemma lookup_key k l h : lookup k l = Some h -> key h = k.
Proof.
  induction l as [|a l IH]; simpl; [discriminate|].
  destruct (String.eqb (key a) k) eqn:E; [|exact IH].
  intros [= <-]. now apply String.eqb_eq.
Qed.

Lemma lookup_In k l h : lookup k l = Some h -> In h l.
Proof.
  induction l as [|a l IH]; simpl; [discriminate|].
  destruct (String.eqb (key a) k); [intros [= <-]; now left | right; auto].
Qed.

Lemma lookup_del k l : lookup k (del k l) = None.
Proof.
  induction l as [|a l IH]; simpl; [reflexivity|].
  destruct (String.eqb (key a) k) eqn:E; simpl; [exact IH|].
  now rewrite E.
Qed.

Lemma lookup_app_none k a b : lookup k (a ++ b) = None -> lookup k a = None.
Proof.
  induction a as [|x a IH]; simpl; [reflexivity|].
  destruct (String.eqb (key x) k); [discriminate | exact IH].
Qed.

Lemma trim_lru_suffix budget l : exists p, l = p ++ trim_lru budget l.
Proof.
  induction l as [|a l [p Hp]]; [now exists []|].
  cbn [trim_lru]. destruct (budget <? total (a :: l)).
  - exists (a :: p). simpl. now f_equal.
  - now exists [].
Qed.

Lemma trim_prefix budget l : exists s, l = trim budget l ++ s.
Proof.
  unfold trim. destruct (trim_lru_suffix budget (rev l)) as [p Hp].
  exists (rev p). rewrite <- rev_app_distr, <- Hp. now rewrite rev_involutive.
Qed.

Lemma trim_lru_keeps_last budget h l :
  length h <= budget -> exists l', trim_lru budget (l ++ [h]) = l' ++ [h].
Proof.
  intros Hfit. induction l as [|a l [l' IH]].
  - exists []. simpl. replace (budget <? length h + 0) with false; [reflexivity|].
    symmetry. apply Z.ltb_ge. lia.
  - change ((a :: l) ++ [h]) with (a :: (l ++ [h])). cbn [trim_lru].
    destruct (budget <? total (a :: l ++ [h])).
    + now exists l'.
    + now exists (a :: l).
Qed.

Lemma trim_keeps_head budget h l :
  length h <= budget -> exists l', trim budget (h :: l) = h :: l'.
Proof.
  intros Hfit. unfold trim. simpl rev.
  destruct (@trim_lru_keeps_last budget h (rev l) Hfit) as [l' ->].
  exists (rev l'). now rewrite rev_app_distr.
Qed.

Lemma lookup_trim_none budget k l :
  lookup k l = None -> lookup k (trim budget l) = None.
Proof.
  intros H. destruct (trim_prefix budget l) as [s Hs].
  rewrite Hs in H. now apply lookup_app_none in H.
Qed.

Lemma Forall_del (P : Hit -> Prop) k l : Forall P l -> Forall P (del k l).
Proof.
  intros H. apply Forall_forall. intros x Hx.
  apply filter_In in Hx. rewrite Forall_forall in H. now apply H.
Qed.

Lemma Forall_trim (P : Hit -> Prop) budget l :
  Forall P l -> Forall P (trim budget l).
Proof.
  intros H. destruct (trim_prefix budget l) as [s Hs].
  rewrite Hs in H. now apply Forall_app in H.
Qed.

(** What [set] leaves under the key it wrote: nothing, or the new entry. *)
Lemma set_lookup len date k v ttl c :
  let age := match ttl with Some m => m | None => 0 end in
  let hit := mkHit k v len (if age =? 0 then 0 else date) age in
  lookup k (items (set len date k v ttl c)) = None \/
  lookup k (items (set len date k v ttl c)) = Some hit.
Proof.
  intros age hit. unfold set. fold age. fold hit.
  destruct (lookup k (items c)) eqn:L.
  - destruct (max c <? len) eqn:Hlen; simpl.
    + left. apply lookup_del.
    + destruct (isStale date hit); simpl.
      * left. apply lookup_trim_none, lookup_del.
      * apply Z.ltb_ge in Hlen.
        destruct (@trim_keeps_head (max c) hit (del k (items c))) as [l' ->];
          [exact Hlen|].
        right. simpl. now rewrite String.eqb_refl.
  - destruct (max c <? len) eqn:Hlen; simpl.
    + now left.
    + apply Z.ltb_ge in Hlen.
      destruct (@trim_keeps_head (max c) hit (items c)) as [l' ->];
        [exact Hlen|].
      right. simpl. now rewrite String.eqb_refl.
Qed.

(** An entry within the budget that is not stale on arrival is kept. *)
Lemma set_lookup_fits len date k v ttl c :
  let age := match ttl with Some m => m | None => 0 end in
  let hit := mkHit k v len (if age =? 0 then 0 else date) age in
  len <= max c -> isStale date hit = false ->
  lookup k (items (set len date k v ttl c)) = Some hit.
Proof.
  intros age hit Hlen Hfresh. unfold set. fold age. fold hit.
  apply Z.ltb_ge in Hlen. rewrite Hlen, Hfresh. apply Z.ltb_ge in Hlen.
  destruct (lookup k (items c)); simpl.
  - destruct (@trim_keeps_head (max c) hit (del k (items c))) as [l' ->];
      [exact Hlen|]. simpl. now rewrite String.eqb_refl.
  - destruct (@trim_keeps_head (max c) hit (items c)) as [l' ->];
      [exact Hlen|]. simpl. now rewrite String.eqb_refl.
Qed.

(** An entry over the budget is not kept. *)
Lemma set_lookup_oversized len date k v ttl c :
  max c < len -> lookup k (items (set len date k v ttl c)) = None.
Proof.
  intros Hlen. unfold set. apply Z.ltb_lt in Hlen. rewrite Hlen.
  destruct (lookup k (items c)) eqn:L; simpl; [apply lookup_del | exact L].
Qed.


Lemma set_Forall (P : Hit -> Prop) len date k v ttl c :
  (forall stamp age, P (mkHit k v len stamp age)) ->
  Forall P (items c) -> Forall P (items (set len date k v ttl c)).
Proof.
  intros Hnew H. unfold set.
  destruct (lookup k (items c)); destruct (max c <? len); simpl; auto.
  - now apply Forall_del.
  - destruct (isStale _ _); simpl; apply Forall_trim.
    + now apply Forall_del.
    + constructor; [apply Hnew | now apply Forall_del].
  - apply Forall_trim. constructor; [apply Hnew | exact H].
Qed.

Lemma get_Forall (P : Hit -> Prop) date k c :
  Forall P (items c) -> Forall P (items (snd (get date k c))).
Proof.
  intros H. unfold get. destruct (lookup k (items c)) eqn:L; [|exact H].
  destruct (isStale date h); simpl.
  - now apply Forall_del.
  - constructor; [|now apply Forall_del].
    rewrite Forall_forall in H. apply H. eapply lookup_In; eauto.
Qed.

(** The first live entry of [dump] under a key is the entry [has] sees. *)
Lemma dump_first date k c h :
  lookup k (items c) = Some h -> isStale date h = false ->
  exists rest,
    filter (fun e => String.eqb (fst (fst e)) k) (dump date c)
    = (key h, value h, now h + maxAge h) :: rest.
Proof.
  unfold dump. induction (items c) as [|a l IH]; simpl; [discriminate|].
  destruct (String.eqb (key a) k) eqn:E.
  - intros [= ->] Hs. rewrite Hs. simpl. rewrite E. eauto.
  - intros L Hs. destruct (isStale date a); simpl; [|rewrite E]; auto.
Qed.

Lemma dump_none date k c :
  lookup k (items c) = None ->
  filter (fun e => String.eqb (fst (fst e)) k) (dump date c) = [].
Proof.
  unfold dump. induction (items c) as [|a l IH]; simpl; [reflexivity|].
  destruct (String.eqb (key a) k) eqn:E; [discriminate|].
  intros L. destruct (isStale date a); simpl; [|rewrite E]; auto.
Qed.

End LruFacts.

(** ** The private methods, case by case *)

Section Steps.

Context {V : Verifier} {S : SizeOf}.

Lemma has_stored token w :
  has token w
  = (Normal (match stored token w with Some _ => true | None => false end), w).
Proof.
  unfold has, cache_has, gets, Lru.has, stored.
  destruct (Lru.lookup token _); [|reflexivity].
  now destruct (Lru.isStale _ _).
Qed.

Lemma sym_getMaxAge_world p w : snd (sym_getMaxAge p w) = w.
Proof.
  destruct p as [| | | |c]; try reflexivity.
  unfold sym_getMaxAge, bind, gets, ret.
  repeat match goal with |- context [if ?b then _ else _] => destruct b end;
    reflexivity.
Qed.

(** A time-to-live derived from claims is a positive span of time. *)
Lemma sym_getMaxAge_positive p w m :
  fst (sym_getMaxAge p w) = Normal (Some m) -> 0 < m.
Proof.
  destruct p as [| | | |c]; try discriminate.
  unfold sym_getMaxAge, bind, gets, ret.
  destruct (negb _ && present (nbf c) && _) eqn:E1.
  - simpl. intros [= <-].
    apply andb_prop in E1 as [_ E1]. apply Z.ltb_lt in E1. lia.
  - destruct (negb _ && present (exp c) && _) eqn:E2; [|discriminate].
    simpl. intros [= <-].
    apply andb_prop in E2 as [_ E2]. apply Z.ltb_lt in E2. lia.
Qed.

(** A payload that is [null] makes the derivation throw; no other does. *)
Lemma sym_getMaxAge_normal p w :
  p <> PNull -> exists ttl, sym_getMaxAge p w = (Normal ttl, w).
Proof.
  intros Hp. destruct p as [s|n|b| |c].
  - now exists None.
  - now exists None.
  - now exists None.
  - congruence.
  - unfold sym_getMaxAge, bind, gets, ret.
    destruct (negb _ && present (nbf c) && _); [now eexists|].
    destruct (negb _ && present (exp c) && _); now eexists.
Qed.

Lemma sym_verify_string token complete promise w :
  is_string complete = true ->
  sym_verify token complete promise w = (Throw usage_error, w).
Proof. intros H. unfold sym_verify. now rewrite H. Qed.

Lemma sym_verify_hit token complete promise w h :
  is_string complete = false -> stored token w = Some h ->
  sym_verify token complete promise w
  = (Normal (if promise
             then Deferred (Resolved (outcome complete (Lru.value h)))
             else Value (outcome complete (Lru.value h))),
     touched token h w).
Proof.
  intros Hs Hst. unfold sym_verify. rewrite Hs.
  unfold bind at 1. fold (has token). rewrite has_stored, Hst.
  cbv beta iota delta [negb]. unfold bind, cache_get, Lru.get.
  unfold stored in Hst.
  destruct (Lru.lookup token _) as [h'|]; [|discriminate].
  destruct (Lru.isStale _ h'); [discriminate|]. injection Hst as ->.
  destruct (Lru.value h) as [err res]. unfold outcome, touched.
  now destruct promise.
Qed.

Lemma sym_verify_undecodable token complete promise w :
  is_string complete = false -> stored token w = None ->
  decode token = None ->
  sym_verify token complete promise w
  = (Throw (TypeError "Cannot read property 'payload' of null"), w).
Proof.
  intros Hs Hst Hd. unfold sym_verify. rewrite Hs.
  unfold bind at 1. fold (has token). rewrite has_stored, Hst.
  cbv beta iota delta [negb]. now rewrite Hd.
Qed.

Lemma sym_verify_miss token complete promise w d ttl :
  is_string complete = false -> stored token w = None ->
  decode token = Some d ->
  sym_getMaxAge (payload d) w = (Normal ttl, w) ->
  sym_verify token complete promise w
  = if promise
    then (Normal (Deferred (Settling token (caught token w, d) ttl
                              (outcome complete (caught token w, d)))),
          logged token w)
    else (Normal (Value (outcome complete (caught token w, d))),
          written token (caught token w, d) ttl (logged token w)).
Proof.
  intros Hs Hst Hd Httl. unfold sym_verify. rewrite Hs.
  unfold bind at 1. fold (has token). rewrite has_stored, Hst.
  cbv beta iota delta [negb]. rewrite Hd. unfold bind at 1. rewrite Httl.
  unfold bind at 1. unfold try_catch, bind at 1, call_verifySync, caught.
  fold (logged token w).
  destruct (verifySync _ _ _ _); unfold ret at 1;
    destruct promise; reflexivity.
Qed.

Lemma sym_verify_throws_getMaxAge token complete promise w d e :
  is_string complete = false -> stored token w = None ->
  decode token = Some d ->
  sym_getMaxAge (payload d) w = (Throw e, w) ->
  sym_verify token complete promise w = (Throw e, w).
Proof.
  intros Hs Hst Hd Httl. unfold sym_verify. rewrite Hs.
  unfold bind at 1. fold (has token). rewrite has_stored, Hst.
  cbv beta iota delta [negb]. rewrite Hd. unfold bind at 1. now rewrite Httl.
Qed.

(** A hit leaves the entry where [has] and [get] find it. *)
Lemma stored_touched token h w :
  stored token w = Some h -> stored token (touched token h w) = Some h.
Proof.
  intros Hst. unfold stored in *. simpl.
  destruct (Lru.lookup token _) as [h'|] eqn:L; [|discriminate].
  destruct (Lru.isStale (Date_now w) h') eqn:E; [discriminate|].
  injection Hst as ->. apply lookup_key in L. rewrite L, String.eqb_refl.
  now rewrite E.
Qed.

(** A fresh entry within the budget is found right after it was written. *)
Lemma stored_written token val ttl w :
  entry_length val token <= Lru.max (cache (this w)) ->
  (forall m, ttl = Some m -> 0 < m) ->
  exists h, stored token (written token val ttl w) = Some h
            /\ Lru.value h = val
            /\ Lru.now h + Lru.maxAge h
               = match ttl with Some m => Date_now w + m | None => 0 end.
Proof.
  intros Hfit Hpos. unfold stored, written. simpl.
  set (age := match ttl with Some m => m | None => 0 end).
  set (hit := Lru.mkHit token val (entry_length val token)
                (if age =? 0 then 0 else Date_now w) age).
  assert (Hfresh : Lru.isStale (Date_now w) hit = false).
  { unfold Lru.isStale, hit. simpl. destruct (age =? 0) eqn:E; [reflexivity|].
    apply Z.ltb_ge. destruct ttl as [m|]; [|discriminate].
    specialize (Hpos m eq_refl). unfold age. lia. }
  rewrite (set_lookup_fits _ (Date_now w) token val ttl _ Hfit Hfresh).
  fold age. fold hit. rewrite Hfresh. exists hit. repeat split.
  unfold hit, age. simpl. destruct ttl as [m|]; [|reflexivity].
  specialize (Hpos m eq_refl).
  replace (m =? 0) with false; [lia|]. symmetry. apply Z.eqb_neq. lia.
Qed.

End Steps.

(** ** The public methods, case by case *)

Section Public.

Context {V : Verifier} {S : SizeOf}.

Lemma verify_hit token complete w h :
  is_string complete = false -> stored token w = Some h ->
  verify token complete w
  = (raised (outcome complete (Lru.value h)), touched token h w).
Proof.
  intros Hs Hst. unfold verify, bind.
  rewrite (sym_verify_hit _ _ false _ _ Hs Hst). unfold raised.
  now destruct (error _).
Qed.

Lemma verify_miss token complete w d ttl :
  is_string complete = false -> stored token w = None ->
  decode token = Some d ->
  sym_getMaxAge (payload d) w = (Normal ttl, w) ->
  verify token complete w
  = (raised (outcome complete (caught token w, d)),
     written token (caught token w, d) ttl (logged token w)).
Proof.
  intros Hs Hst Hd Httl. unfold verify, bind.
  rewrite (sym_verify_miss _ _ false _ _ _ Hs Hst Hd Httl). unfold raised.
  now destruct (error _).
Qed.

Lemma verifyAsync_hit token complete w h :
  is_string complete = false -> stored token w = Some h ->
  verifyAsync token complete w
  = (Awaiting (Resolved (outcome complete (Lru.value h))), touched token h w).
Proof.
  intros Hs Hst. unfold verifyAsync.
  now rewrite (sym_verify_hit _ _ true _ _ Hs Hst).
Qed.

Lemma verifyAsync_miss token complete w d ttl :
  is_string complete = false -> stored token w = None ->
  decode token = Some d ->
  sym_getMaxAge (payload d) w = (Normal ttl, w) ->
  verifyAsync token complete w
  = (Awaiting (Settling token (caught token w, d) ttl
                 (outcome complete (caught token w, d))),
     logged token w).
Proof.
  intros Hs Hst Hd Httl. unfold verifyAsync.
  now rewrite (sym_verify_miss _ _ true _ _ _ Hs Hst Hd Httl).
Qed.

Lemma verify_callback_hit token complete w h :
  is_string complete = false -> stored token w = Some h ->
  verify_callback token complete w
  = (Normal (Resolved (outcome complete (Lru.value h))), touched token h w).
Proof.
  intros Hs Hst. unfold verify_callback, bind.
  now rewrite (sym_verify_hit _ _ true _ _ Hs Hst).
Qed.

Lemma await_resolved o w : await (Awaiting (Resolved o)) w = (rejected o, w).
Proof. unfold await, settle, bind, ret, rejected. now destruct (error o). Qed.

Lemma await_settling token val ttl o w :
  await (Awaiting (Settling token val ttl o)) w
  = (rejected o, written token val ttl w).
Proof.
  unfold await, settle, bind, cache_set, modify, ret, rejected, written.
  now destruct (error o).
Qed.

Lemma getMaxAge_stored token w h :
  stored token w = Some h ->
  getMaxAge token w
  = (Normal (Some ((Lru.now h + Lru.maxAge h - Date_now w) / 1000)), w).
Proof.
  unfold stored, getMaxAge, bind, gets. intros Hst.
  destruct (Lru.lookup token _) as [h'|] eqn:L; [|discriminate].
  destruct (Lru.isStale _ h') eqn:E; [discriminate|]. injection Hst as ->.
  destruct (dump_first _ _ _ _ L E) as [rest ->]. reflexivity.
Qed.

Lemma getMaxAge_absent token w :
  Lru.lookup token (Lru.items (cache (this w))) = None ->
  getMaxAge token w = (Normal None, w).
Proof.
  unfold getMaxAge, bind, gets. intros L. now rewrite (dump_none _ _ _ L).
Qed.

(** The messages of [Error(e)] and of [e] differ in length. *)
Lemma length_append (a b : string) :
  String.length (a ++ b)%string = (String.length a + String.length b)%nat.
Proof. induction a as [|c a IH]; simpl; [reflexivity | now rewrite IH]. Qed.

Lemma Error_is_another_error (e : JsError) : Error_ e <> e.
Proof.
  unfold Error_, toString. destruct e as [n m]. simpl. intros [= _ H].
  apply (f_equal String.length) in H. rewrite !length_append in H.
  simpl in H. lia.
Qed.

(** The derivation agrees with the wording of the specification on claims
    that are absent or non-zero. *)
Lemma sym_getMaxAge_refines c w :
  nbf c <> Some 0 -> exp c <> Some 0 ->
  sym_getMaxAge (PObj c) w
  = (Normal (computeDeadline_spec (PObj c) (options (this w))
                                  (Date_now w / 1000)), w).
Proof.
  intros Hn He. unfold sym_getMaxAge, computeDeadline_spec, bind, gets, ret.
  assert (Pn : forall n, nbf c = Some n -> present (nbf c) = true).
  { intros n E. rewrite E. simpl. apply negb_true_iff, Z.eqb_neq. congruence. }
  assert (Pe : forall n, exp c = Some n -> present (exp c) = true).
  { intros n E. rewrite E. simpl. apply negb_true_iff, Z.eqb_neq. congruence. }
  destruct (nbf c) as [n|] eqn:En; destruct (exp c) as [e|] eqn:Ee;
    try rewrite (Pn _ eq_refl); try rewrite (Pe _ eq_refl); simpl;
    rewrite ?andb_true_r, ?andb_false_r; simpl;
    repeat match goal with |- context [if ?b then _ else _] => destruct b end;
    reflexivity.
Qed.

(** Once the clock is more than the time-to-live past the write, the entry
    is gone: [has] answers false and [verify] asks the verifier again. *)
Lemma expired_entry_is_verified_again token complete w h d ttl :
  Lru.lookup token (Lru.items (cache (this w))) = Some h ->
  Lru.maxAge h <> 0 -> Lru.now h + Lru.maxAge h < Date_now w ->
  is_string complete = false -> decode token = Some d ->
  sym_getMaxAge (payload d) w = (Normal ttl, w) ->
  fst (has token w) = Normal false /\
  verifier_calls (snd (verify token complete w)) = token :: verifier_calls w.
Proof.
  intros L Hage Hlate Hs Hd Httl.
  assert (Hst : stored token w = None).
  { unfold stored. rewrite L. unfold Lru.isStale.
    apply Z.eqb_neq in Hage. rewrite Hage.
    replace (Lru.maxAge h <? Date_now w - Lru.now h) with true; [reflexivity|].
    symmetry. apply Z.ltb_lt. lia. }
  split.
  - now rewrite has_stored, Hst.
  - now rewrite (verify_miss _ _ _ _ _ Hs Hst Hd Httl).
Qed.

End Public.

(** ** Invariant of the reachable worlds *)

Section Invariant.

Context {V : Verifier} {S : SizeOf}.

(** The five ways through the private [verify]. *)
Lemma sym_verify_cases token complete promise w :
  (is_string complete = true /\
   sym_verify token complete promise w = (Throw usage_error, w)) \/
  (is_string complete = false /\
   ((exists h, stored token w = Some h /\
       sym_verify token complete promise w
       = (Normal (if promise
                  then Deferred (Resolved (outcome complete (Lru.value h)))
                  else Value (outcome complete (Lru.value h))),
          touched token h w)) \/
    (stored token w = None /\
     ((decode token = None /\
       sym_verify token complete promise w
       = (Throw (TypeError "Cannot read property 'payload' of null"), w)) \/
      (exists d, decode token = Some d /\
        ((exists e, sym_getMaxAge (payload d) w = (Throw e, w) /\
            sym_verify token complete promise w = (Throw e, w)) \/
         (exists ttl, sym_getMaxAge (payload d) w = (Normal ttl, w) /\
            sym_verify token complete promise w
            = if promise
              then (Normal (Deferred
                      (Settling token (caught token w, d) ttl
                         (outcome complete (caught token w, d)))),
                    logged token w)
              else (Normal (Value (outcome complete (caught token w, d))),
                    written token (caught token w, d) ttl
                            (logged token w))))))))).
Proof.
  destruct (is_string complete) eqn:Hs.
  - left. split; [reflexivity|]. now apply sym_verify_string.
  - right. split; [reflexivity|].
    destruct (stored token w) as [h|] eqn:Hst.
    + left. exists h. split; [reflexivity|]. now apply sym_verify_hit.
    + right. split; [reflexivity|].
      destruct (decode token) as [d|] eqn:Hd.
      * right. exists d. split; [reflexivity|].
        pose proof (sym_getMaxAge_world (payload d) w) as Hw.
        destruct (sym_getMaxAge (payload d) w) as [[ttl|e] w'] eqn:E;
          simpl in Hw; subst w'.
        -- right. exists ttl. split; [reflexivity|].
           now apply sym_verify_miss.
        -- left. exists e. split; [reflexivity|].
           now apply sym_verify_throws_getMaxAge with d.
      * left. split; [reflexivity|]. now apply sym_verify_undecodable.
Qed.

Lemma stored_decodes token w h :
  decodes (cache (this w)) -> stored token w = Some h ->
  decode token = Some (snd (Lru.value h)).
Proof.
  unfold decodes, stored. intros Hinv Hst.
  destruct (Lru.lookup token _) as [h'|] eqn:L; [|discriminate].
  destruct (Lru.isStale _ h'); [discriminate|]. injection Hst as ->.
  rewrite Forall_forall in Hinv. rewrite <- (lookup_key _ _ _ L).
  apply Hinv. now apply lookup_In with token.
Qed.

Lemma decodes_touched token w h :
  decodes (cache (this w)) -> stored token w = Some h ->
  decodes (cache (this (touched token h w))).
Proof.
  unfold decodes, stored, touched. simpl. intros Hinv Hst.
  destruct (Lru.lookup token _) as [h'|] eqn:L; [|discriminate].
  destruct (Lru.isStale _ h'); [discriminate|]. injection Hst as ->.
  constructor; [|now apply Forall_del].
  rewrite Forall_forall in Hinv. apply Hinv. now apply lookup_In with token.
Qed.

Lemma decodes_written token err d ttl w :
  decodes (cache (this w)) -> decode token = Some d ->
  decodes (cache (this (written token (err, d) ttl w))).
Proof.
  unfold decodes, written. simpl. intros Hinv Hd.
  apply set_Forall; [|exact Hinv]. intros stamp age. exact Hd.
Qed.

Lemma decodes_sym_verify token complete promise w :
  decodes (cache (this w)) ->
  decodes (cache (this (snd (sym_verify token complete promise w)))).
Proof.
  intros Hinv.
  destruct (sym_verify_cases token complete promise w)
    as [[_ ->] | [_ [[h [Hst ->]] | [_ [[_ ->] | [d [Hd [[e [_ ->]] |
        [ttl [_ ->]]]]]]]]]]; simpl; auto.
  - now apply decodes_touched.
  - destruct promise; simpl; [exact Hinv|]. now apply decodes_written.
Qed.

Lemma promise_for_sym_verify token complete w p :
  decodes (cache (this w)) ->
  fst (sym_verify token complete true w) = Normal (Deferred p) ->
  promise_for token complete p.
Proof.
  intros Hinv.
  destruct (sym_verify_cases token complete true w)
    as [[_ ->] | [_ [[h [Hst ->]] | [_ [[_ ->] | [d [Hd [[e [_ ->]] |
        [ttl [_ ->]]]]]]]]]]; simpl; try discriminate.
  - intros [= <-]. exists (fst (Lru.value h)), (snd (Lru.value h)).
    split; [now apply stored_decodes with w | now left].
  - intros [= <-]. exists (caught token w), d.
    split; [exact Hd | right; now exists ttl].
Qed.

Lemma decodes_settle token complete p w :
  promise_for token complete p -> decodes (cache (this w)) ->
  decodes (cache (this (snd (settle p w)))).
Proof.
  intros [err [d [Hd [-> | [ttl ->]]]]] Hinv; simpl; [exact Hinv|].
  unfold bind, cache_set, modify, ret. simpl.
  now apply (decodes_written token err d ttl w).
Qed.

Lemma Reachable_decodes w : Reachable w -> decodes (cache (this w)).
Proof.
  induction 1 as [size secret opts t | w dt _ IH _
                 | w token complete promise _ IH
                 | w0 w token complete p _ IH0 Hp _ IH].
  - constructor.
  - exact IH.
  - now apply decodes_sym_verify.
  - apply decodes_settle with token complete; [|exact IH].
    now apply promise_for_sym_verify with w0.
Qed.

(** The outcome a promise resolves with does not depend on when it is
    run. *)
Lemma settle_promise_for token complete p w :
  promise_for token complete p ->
  exists err d, decode token = Some d /\
    fst (settle p w) = Normal (mkOut err (shape complete d)).
Proof.
  intros [err [d [Hd [-> | [ttl ->]]]]]; exists err, d; split; auto.
Qed.

End Invariant.

(** ** The claims of the specification *)

Section Claims.

Context {V : Verifier} {S : SizeOf}.

Lemma stored_written_inv token val ttl w h :
  stored token (written token val ttl w) = Some h ->
  h = Lru.mkHit token val (entry_length val token)
        (if match ttl with Some m => m | None => 0 end =? 0
         then 0 else Date_now w)
        (match ttl with Some m => m | None => 0 end).
Proof.
  unfold stored, written. simpl.
  destruct (set_lookup (entry_length val token) (Date_now w) token val ttl
              (cache (this w))) as [-> | ->]; [discriminate|].
  destruct (Lru.isStale _ _); [discriminate|]. now intros [= <-].
Qed.

Lemma promise_mode token complete w r w1 :
  decodes (cache (this w)) ->
  sym_verify token complete true w = (Normal r, w1) ->
  exists p, r = Deferred p /\ promise_for token complete p.
Proof.
  intros Hinv E.
  assert (Hp : forall p, fst (sym_verify token complete true w)
                         = Normal (Deferred p) -> promise_for token complete p)
    by (intros p; now apply promise_for_sym_verify).
  rewrite E in Hp. simpl in Hp.
  destruct (sym_verify_cases token complete true w)
    as [[_ H] | [_ [[h [_ H]] | [_ [[_ H] | [d [_ [[e [_ H]] |
        [ttl [_ H]]]]]]]]]]; rewrite H in E; try discriminate;
    injection E as <- _; eexists; split; try reflexivity; now apply Hp.
Qed.

(** C10.  In every reachable world and for every token, what the three
    calling conventions hand over as the result is the unverified decode
    of the token, shaped by [complete]: the blocking call returns it, the
    callback receives it, the promise of [verifyAsync] fulfils with it.
    The verifier is any verifier, so the value it returns plays no part. *)
Theorem result_is_the_unverified_decode w token complete :
  Reachable w ->
  (forall r w1, verify token complete w = (Normal r, w1) ->
     exists d, decode token = Some d /\ r = shape complete d) /\
  (forall p w1, verify_callback token complete w = (Normal p, w1) ->
     forall w2 err r w3, callback_args p w2 = (Normal (err, r), w3) ->
     exists d, decode token = Some d /\ r = shape complete d) /\
  (forall call w1, verifyAsync token complete w = (call, w1) ->
     forall w2 r w3, await call w2 = (Normal r, w3) ->
     exists d, decode token = Some d /\ r = shape complete d).
Proof.
  intros Hr. apply Reachable_decodes in Hr. repeat split.
  - intros r w1. unfold verify, bind.
    destruct (sym_verify_cases token complete false w)
      as [[_ ->] | [_ [[h [Hst ->]] | [_ [[_ ->] | [d [Hd [[e [_ ->]] |
          [ttl [_ ->]]]]]]]]]]; try discriminate; simpl.
    + destruct (fst (Lru.value h)); [discriminate|]. intros [= <- _].
      exists (snd (Lru.value h)). split; [|reflexivity].
      now apply stored_decodes with w.
    + destruct (caught token w); [discriminate|]. intros [= <- _].
      now exists d.
  - intros p w1 E w2 err r w3. unfold verify_callback, bind in E.
    destruct (sym_verify token complete true w) as [[ret0|e] w'] eqn:Es;
      [|discriminate].
    destruct (promise_mode _ _ _ _ _ Hr Es) as [p' [-> Hp]].
    injection E as <- _.
    destruct (settle_promise_for _ _ _ w2 Hp) as [err' [d [Hd Hs]]].
    unfold callback_args, bind.
    destruct (settle p' w2) as [[o|e] w'']; simpl in Hs; [|discriminate].
    injection Hs as ->. simpl. intros [= _ <- _]. now exists d.
  - intros call w1 E w2 r w3. unfold verifyAsync in E.
    destruct (sym_verify token complete true w) as [[ret0|e] w'] eqn:Es.
    + destruct (promise_mode _ _ _ _ _ Hr Es) as [p' [-> Hp]].
      injection E as <- _.
      destruct (settle_promise_for _ _ _ w2 Hp) as [err' [d [Hd Hs]]].
      unfold await, bind.
      destruct (settle p' w2) as [[o|e] w'']; simpl in Hs; [|discriminate].
      injection Hs as ->. simpl. destruct err'; [discriminate|].
      intros [= <- _]. now exists d.
    + injection E as <- _. discriminate.
Qed.

(** C9.  A token with an [nbf] in the future and an [exp] further in the
    future, verified by a cache with the default options (no tolerance,
    not-before honoured): the entry it leaves in the cache is scheduled at
    [nbf], so that [getMaxAge(token)] is [nbf - now] seconds. *)
Theorem nbf_takes_precedence w token complete d c n e :
  decode token = Some d -> payload d = PObj c ->
  nbf c = Some n -> exp c = Some e ->
  0 <= Date_now w ->
  tolerance (options (this w)) = 0 ->
  flag ignoreNotBefore (options (this w)) = false ->
  Date_now w / 1000 < n -> n < e ->
  is_string complete = false ->
  fst (has token w) = Normal false ->
  fst (has token (snd (verify token complete w))) = Normal true ->
  fst (getMaxAge token (snd (verify token complete w)))
  = Normal (Some (n - Date_now w / 1000)).
Proof.
  intros Hd Hp Hn He Hclock Htol Hflag Hfuture Hexp Hs Hmiss Hhit.
  rewrite has_stored in Hmiss. simpl in Hmiss.
  destruct (stored token w) eqn:Hst; [discriminate|]. clear Hmiss.
  assert (Httl : sym_getMaxAge (payload d) w
                 = (Normal (Some ((n - Date_now w / 1000) * 1000)), w)).
  { rewrite Hp. unfold sym_getMaxAge, bind, gets, ret.
    rewrite Htol, Hflag, Hn. simpl.
    assert (0 <= Date_now w / 1000) by (apply Z.div_pos; lia).
    replace (n =? 0) with false by (symmetry; apply Z.eqb_neq; lia).
    replace (Date_now w / 1000 + 0 <? n) with true
      by (symmetry; apply Z.ltb_lt; lia).
    simpl. do 3 f_equal. lia. }
  rewrite (verify_miss _ _ _ _ _ Hs Hst Hd Httl) in Hhit |- *.
  cbn [snd] in Hhit |- *. rewrite has_stored in Hhit. cbn [fst] in Hhit.
  destruct (stored token (written _ _ _ _)) as [h|] eqn:Hw; [|discriminate].
  rewrite (getMaxAge_stored _ _ _ Hw). simpl.
  apply stored_written_inv in Hw. subst h. simpl.
  assert (0 <= Date_now w / 1000) by (apply Z.div_pos; lia).
  replace ((n - Date_now w / 1000) * 1000 =? 0) with false
    by (symmetry; apply Z.eqb_neq; lia).
  do 2 f_equal.
  replace (Date_now w + (n - Date_now w / 1000) * 1000 - Date_now w)
    with ((n - Date_now w / 1000) * 1000) by lia.
  apply Z.div_mul. lia.
Qed.

(** C7, as amended.  A second positional argument that is a string is
    refused with the usage error by all three calling conventions, and the
    world is left as it was: the verifier is not called, the cache is
    neither read nor written, nothing is stored. *)
Theorem string_as_second_argument_is_refused token s w :
  verify token (AString s) w = (Throw usage_error, w) /\
  verify_callback token (AString s) w = (Throw usage_error, w) /\
  verifyAsync token (AString s) w = (Rejected usage_error, w).
Proof.
  unfold verify, verify_callback, verifyAsync, bind.
  now rewrite !sym_verify_string.
Qed.

Lemma verify_cases token complete w :
  (exists e, verify token complete w = (Throw e, w)) \/
  (is_string complete = false /\
   exists h, stored token w = Some h /\
     verify token complete w
     = (raised (outcome complete (Lru.value h)), touched token h w)) \/
  (is_string complete = false /\ stored token w = None /\
   exists d ttl, decode token = Some d /\
     sym_getMaxAge (payload d) w = (Normal ttl, w) /\
     verify token complete w
     = (raised (outcome complete (caught token w, d)),
        written token (caught token w, d) ttl (logged token w))).
Proof.
  destruct (sym_verify_cases token complete false w)
    as [[_ H] | [Hs [[h [Hst _]] | [Hst [[_ H] | [d [Hd [[e [_ H]] |
        [ttl [Httl _]]]]]]]]]].
  - left. exists usage_error. unfold verify, bind. now rewrite H.
  - right. left. split; [exact Hs|]. exists h. split; [exact Hst|].
    now apply verify_hit.
  - left. eexists. unfold verify, bind. now rewrite H.
  - left. exists e. unfold verify, bind. now rewrite H.
  - right. right. repeat split; auto. exists d, ttl. repeat split; auto.
    now apply verify_miss.
Qed.

(** C3, as amended.  When the entry of the token fits the byte budget,
    [verify] called twice in a row with the clock standing still gives the
    same outcome both times and reaches the verifier at most once.  And
    on any hit the outcome is the stored pair shaped by [complete], the
    verifier is not called and the entry, with its time of writing and its
    time-to-live, stays as it was. *)
Theorem verify_twice_verifies_once w token complete :
  fits token w ->
  let r1 := verify token complete w in
  let r2 := verify token complete (snd r1) in
  fst r2 = fst r1 /\
  (List.length (verifier_calls (snd r2))
   <= Datatypes.S (List.length (verifier_calls w)))%nat /\
  (forall w' h, is_string complete = false -> stored token w' = Some h ->
     fst (verify token complete w') = raised (outcome complete (Lru.value h))
     /\ verifier_calls (snd (verify token complete w')) = verifier_calls w'
     /\ stored token (snd (verify token complete w')) = Some h).
Proof.
  intros Hfit r1 r2.
  assert (Hhit : forall w' h, is_string complete = false ->
            stored token w' = Some h ->
            fst (verify token complete w')
            = raised (outcome complete (Lru.value h))
            /\ verifier_calls (snd (verify token complete w'))
               = verifier_calls w'
            /\ stored token (snd (verify token complete w')) = Some h).
  { intros w' h Hs Hst. rewrite (verify_hit _ _ _ _ Hs Hst). simpl.
    repeat split. now apply stored_touched. }
  split; [|split; [|exact Hhit]]; subst r2 r1.
  - destruct (verify_cases token complete w)
      as [[e H] | [[Hs [h [Hst H]]] | [Hs [Hst [d [ttl [Hd [Httl H]]]]]]]].
    + rewrite H. simpl. now rewrite H.
    + rewrite H. simpl.
      destruct (Hhit _ _ Hs (stored_touched _ _ _ Hst)) as [-> _].
      reflexivity.
    + rewrite H. simpl.
      destruct (stored_written token (caught token w, d) ttl (logged token w))
        as [h [Hw [Hv _]]].
      * apply Hfit, Hd.
      * intros m ->. apply (sym_getMaxAge_positive (payload d) w).
        now rewrite Httl.
      * destruct (Hhit _ _ Hs Hw) as [-> _]. now rewrite Hv.
  - destruct (verify_cases token complete w)
      as [[e H] | [[Hs [h [Hst H]]] | [Hs [Hst [d [ttl [Hd [Httl H]]]]]]]].
    + rewrite H. simpl. rewrite H. simpl. lia.
    + rewrite H. simpl.
      destruct (Hhit _ _ Hs (stored_touched _ _ _ Hst)) as [_ [-> _]].
      simpl. lia.
    + rewrite H. simpl.
      destruct (stored_written token (caught token w, d) ttl (logged token w))
        as [h [Hw _]].
      * apply Hfit, Hd.
      * intros m ->. apply (sym_getMaxAge_positive (payload d) w).
        now rewrite Httl.
      * destruct (Hhit _ _ Hs Hw) as [_ [-> _]]. simpl. lia.
Qed.

(** C4, as amended.  A decodable token (its payload not [null]) that the
    verifier refuses with [e], and whose entry fits the byte budget: after
    one failed attempt, blocking or awaited, [has] is true and the pair
    [(e, decode)] is stored.  From then on, wherever that entry is still
    held and live, the blocking call raises [Error(e)], [verifyAsync]
    rejects with [e] and the callback receives [e], and none of them
    reaches the verifier. *)
Theorem failed_verification_is_cached w token complete d e :
  is_string complete = false ->
  decode token = Some d -> payload d <> PNull ->
  fst (has token w) = Normal false ->
  verifySync token (secretOrPrivateKey (this w)) (options (this w))
             (Date_now w) = inl e ->
  entry_length (Some e, d) token <= Lru.max (cache (this w)) ->
  (fst (verify token complete w) = Throw (Error_ e) /\
   verifier_calls (snd (verify token complete w))
   = token :: verifier_calls w /\
   fst (has token (snd (verify token complete w))) = Normal true /\
   exists h, stored token (snd (verify token complete w)) = Some h
             /\ Lru.value h = (Some e, d)) /\
  (fst (verifyAsync_awaited token complete w) = Throw e /\
   verifier_calls (snd (verifyAsync_awaited token complete w))
   = token :: verifier_calls w /\
   fst (has token (snd (verifyAsync_awaited token complete w))) = Normal true /\
   exists h, stored token (snd (verifyAsync_awaited token complete w)) = Some h
             /\ Lru.value h = (Some e, d)) /\
  (forall w2 h c2,
     stored token w2 = Some h -> Lru.value h = (Some e, d) ->
     is_string c2 = false ->
     (fst (verify token c2 w2) = Throw (Error_ e) /\
      verifier_calls (snd (verify token c2 w2)) = verifier_calls w2) /\
     (fst (verifyAsync_awaited token c2 w2) = Throw e /\
      verifier_calls (snd (verifyAsync_awaited token c2 w2))
      = verifier_calls w2) /\
     (exists p, fst (verify_callback token c2 w2) = Normal p /\
        verifier_calls (snd (verify_callback token c2 w2))
        = verifier_calls w2 /\
        forall w3, callback_args p w3 = (Normal (Some e, shape c2 d), w3))).
Proof.
  intros Hs Hd Hp Hmiss Hv Hfit.
  rewrite has_stored in Hmiss. simpl in Hmiss.
  destruct (stored token w) eqn:Hst; [discriminate|]. clear Hmiss.
  destruct (sym_getMaxAge_normal (payload d) w Hp) as [ttl Httl].
  assert (Hc : caught token w = Some e) by (unfold caught; now rewrite Hv).
  assert (Hpos : forall m, ttl = Some m -> 0 < m).
  { intros m ->. apply (sym_getMaxAge_positive (payload d) w).
    now rewrite Httl. }
  destruct (stored_written token (Some e, d) ttl (logged token w) Hfit Hpos)
    as [h [Hw [Hval _]]].
  split; [|split].
  - rewrite (verify_miss _ _ _ _ _ Hs Hst Hd Httl), Hc. cbn [fst snd].
    rewrite has_stored, Hw. repeat split; simpl; auto. now exists h.
  - unfold verifyAsync_awaited.
    rewrite (verifyAsync_miss _ _ _ _ _ Hs Hst Hd Httl), Hc.
    rewrite await_settling. cbn [fst snd].
    rewrite has_stored, Hw. repeat split; simpl; auto. now exists h.
  - intros w2 h2 c2 Hst2 Hval2 Hs2. repeat split.
    + rewrite (verify_hit _ _ _ _ Hs2 Hst2), Hval2. reflexivity.
    + now rewrite (verify_hit _ _ _ _ Hs2 Hst2).
    + unfold verifyAsync_awaited.
      rewrite (verifyAsync_hit _ _ _ _ Hs2 Hst2), await_resolved, Hval2.
      reflexivity.
    + unfold verifyAsync_awaited.
      now rewrite (verifyAsync_hit _ _ _ _ Hs2 Hst2), await_resolved.
    + eexists. rewrite (verify_callback_hit _ _ _ _ Hs2 Hst2). simpl.
      repeat split. intros w3. now rewrite Hval2.
Qed.

End Claims.

(** ** Further general facts *)

Section Further.

Context {V : Verifier} {S : SizeOf}.

(** For a decodable token whose payload is not [null], the private
    [verify] returns in both modes, hit or miss. *)
Lemma population_does_not_throw token complete promise w d :
  is_string complete = false -> decode token = Some d ->
  payload d <> PNull ->
  exists r, fst (sym_verify token complete promise w) = Normal r.
Proof.
  intros Hs Hd Hp. destruct (stored token w) as [h|] eqn:Hst.
  - rewrite (sym_verify_hit _ _ promise _ _ Hs Hst). now eexists.
  - destruct (sym_getMaxAge_normal (payload d) w Hp) as [ttl Httl].
    rewrite (sym_verify_miss _ _ promise _ _ _ Hs Hst Hd Httl).
    destruct promise; now eexists.
Qed.

(** The store counts the time-to-live from the clock in milliseconds, the
    derivation from the clock in whole seconds: the entry expires later
    than the deadline by the milliseconds in between. *)
Lemma expiry_is_deadline_plus_remainder p w m :
  sym_getMaxAge p w = (Normal (Some m), w) ->
  fst (deadline p w)
  = Normal (Some (Date_now w + m - Date_now w mod 1000)).
Proof.
  intros H. unfold deadline, bind, gets, ret. rewrite H. simpl.
  do 2 f_equal. pose proof (Z.div_mod (Date_now w) 1000). lia.
Qed.

(** The deadline is the instant the claims name: [nbf - clockTolerance] or
    [exp + clockTolerance], in milliseconds. *)
Lemma deadline_is_the_claimed_instant c w x :
  fst (deadline (PObj c) w) = Normal (Some x) ->
  x = (number (nbf c) - tolerance (options (this w))) * 1000 \/
  x = (number (exp c) + tolerance (options (this w))) * 1000.
Proof.
  unfold deadline, sym_getMaxAge, bind, gets, ret.
  destruct (negb _ && present (nbf c) && _).
  - simpl. intros [= <-]. left. lia.
  - destruct (negb _ && present (exp c) && _); simpl; [|discriminate].
    intros [= <-]. right. lia.
Qed.

(** For an entry the cache holds, [getMaxAge(token)] is a number. *)
Lemma getMaxAge_of_held_entry_is_a_number token w h :
  stored token w = Some h ->
  exists n, fst (getMaxAge token w) = Normal (Some n).
Proof. intros H. rewrite (getMaxAge_stored _ _ _ H). now eexists. Qed.

End Further.

(** ** The claims on the concrete world *)

Section Concrete.

Existing Instance Jwt.jsonwebtoken.
Existing Instance Jwt.object_sizeof.

(** C1.  A cache created at clock 1000999 ms verifies a token whose [exp]
    is 1001 s.  The deadline derived from the claims is 1001000 ms.  At
    clock 1001500 ms, past that deadline, the verifier itself reports the
    token expired, yet [has] is true and the blocking, the awaited and the
    callback call all serve the stored success without a verifier call. *)
Theorem entry_outlives_its_deadline :
  let T := "jwtExpNext" in
  let w0 := new_world (1024 * 1024) Jwt.secret None 1000999 in
  let w1 := snd (verify T AUndefined w0) in
  let w2 := advance 501 w1 in
  let claims := PObj (mkClaims None (Some 1001) Jwt.success) in
  decode T = Some (mkDecoded "HS256" claims Jwt.secret) /\
  fst (deadline claims w0) = Normal (Some 1001000) /\
  Date_now w2 = 1001500 /\
  verifySync T Jwt.secret None (Date_now w2) = inl Jwt.TokenExpiredError /\
  fst (has T w2) = Normal true /\
  fst (verify T AUndefined w2) = Normal (SPayload claims) /\
  verifier_calls (snd (verify T AUndefined w2)) = verifier_calls w1 /\
  fst (verifyAsync_awaited T AUndefined w2) = Normal (SPayload claims) /\
  verifier_calls (snd (verifyAsync_awaited T AUndefined w2))
  = verifier_calls w1 /\
  (exists p, fst (verify_callback T AUndefined w2) = Normal p /\
     fst (callback_args p (snd (verify_callback T AUndefined w2)))
     = Normal (None, SPayload claims)).
Proof.
  vm_compute. repeat split. eexists. split; reflexivity.
Qed.

(** C2.  With [Date.now()] at 1000000 ms and a tolerance of 2000 s, the
    claims [{exp: 0}] have [now - clockTolerance < exp]: as the
    specification words it the deadline is 1000000 ms away, but the private
    [getMaxAge] takes the zero for an absent claim and returns [null].
    And a payload that is [null], which is no mapping, makes it throw
    where the specification returns [null]. *)
Theorem zero_claim_counts_as_absent :
  let opts := Some (mkOptions (Some 2000) false false None) in
  let w := new_world (1024 * 1024) Jwt.secret opts Jwt.dateOrig in
  let claims := PObj (mkClaims None (Some 0) Jwt.success) in
  computeDeadline_spec claims opts (Date_now w / 1000) = Some 1000000 /\
  fst (sym_getMaxAge claims w) = Normal None /\
  computeDeadline_spec PNull opts (Date_now w / 1000) = None /\
  fst (sym_getMaxAge PNull w)
  = Throw (TypeError "Cannot destructure property 'nbf' of null.").
Proof. vm_compute. repeat split. Qed.

(** C3, as stated, fails.  In a cache of one byte no entry fits: two calls
    of [verify] in a row, the clock standing still, reach the verifier
    twice. *)
Lemma tiny_cache_verifies_twice :
  let T := "jwtNoExpiration" in
  let r1 := verify T AUndefined Jwt.tiny in
  let r2 := verify T AUndefined (snd r1) in
  verifier_calls Jwt.tiny = [] /\
  Date_now (snd r1) = Date_now Jwt.tiny /\
  verifier_calls (snd r2) = [T; T].
Proof. vm_compute. repeat split. Qed.

(** C4, as stated, fails.  In a cache of one byte, a token signed with the
    wrong secret is refused by the verifier, and right after the failed
    attempt [has] is false; the next call reaches the verifier again. *)
Lemma tiny_cache_forgets_failure :
  let T := "jwtWrongSecret" in
  let r1 := verify T AUndefined Jwt.tiny in
  let r2 := verify T AUndefined (snd r1) in
  (exists d, decode T = Some d) /\
  fst r1 = Throw (Error_ (Jwt.JsonWebTokenError "invalid signature")) /\
  fst (has T (snd r1)) = Normal false /\
  verifier_calls (snd r2) = [T; T].
Proof. vm_compute. repeat split. eexists. reflexivity. Qed.

(** C5.  The verifier refuses a token signed with the wrong secret with a
    [JsonWebTokenError].  [verifyAsync] rejects with that very error; the
    blocking [verify] raises another one, a plain [Error] whose message
    is the text of the first, on the miss and again on the hit. *)
Theorem blocking_verify_raises_a_new_error :
  let T := "jwtWrongSecret" in
  let e := Jwt.JsonWebTokenError "invalid signature" in
  let w1 := snd (verify T AUndefined Jwt.lru) in
  verifySync T Jwt.secret None Jwt.dateOrig = inl e /\
  fst (verify T AUndefined Jwt.lru)
  = Throw (mkError "Error" "JsonWebTokenError: invalid signature") /\
  fst (verify T AUndefined w1)
  = Throw (mkError "Error" "JsonWebTokenError: invalid signature") /\
  mkError "Error" "JsonWebTokenError: invalid signature" <> e /\
  fst (verifyAsync_awaited T AUndefined Jwt.lru) = Throw e.
Proof. vm_compute. repeat split. discriminate. Qed.

(** C6.  The string "hi" is not a token and [decode] answers [null]: the
    private [verify] throws a [TypeError] in synchronous and in promise
    mode, the verifier is not asked and nothing is stored. *)
Theorem undecodable_token_throws :
  let e := TypeError "Cannot read property 'payload' of null" in
  decode "hi" = None /\
  sym_verify "hi" AUndefined false Jwt.lru = (Throw e, Jwt.lru) /\
  sym_verify "hi" AUndefined true Jwt.lru = (Throw e, Jwt.lru) /\
  fst (has "hi" Jwt.lru) = Normal false.
Proof. vm_compute. repeat split. Qed.

(** C7, as stated, fails.  An options object as second argument is not a
    boolean, yet no usage error is raised: it counts as a true [complete],
    the verifier is called and the outcome is stored. *)
Lemma options_object_is_not_refused :
  let T := "jwtNoExpiration" in
  let arg := AObject (mkOptions None false false (Some "urn:foo")) in
  let r := verify T arg Jwt.lru in
  is_boolean arg = false /\
  fst r = Normal (SDecoded (mkDecoded "HS256"
                    (PObj (mkClaims None None Jwt.success)) Jwt.secret)) /\
  verifier_calls (snd r) = [T] /\
  fst (has T (snd r)) = Normal true.
Proof. vm_compute. repeat split. Qed.

(** C8.  A token whose payload is the bare string "hi" is cached without a
    time-to-live; [getMaxAge(token)] then returns -1000, the clock in
    seconds negated, not [null]. *)
Theorem getMaxAge_without_ttl_is_a_number :
  let T := "jwtString" in
  let w1 := snd (verifyAsync_awaited T AUndefined Jwt.lru) in
  fst (verifyAsync_awaited T AUndefined Jwt.lru) = Normal (SPayload (PStr "hi")) /\
  fst (has T w1) = Normal true /\
  (exists h, stored T w1 = Some h /\ Lru.maxAge h = 0) /\
  fst (getMaxAge T w1) = Normal (Some (-1000)).
Proof. vm_compute. repeat split. eexists. split; reflexivity. Qed.

End Concrete.

(** ** The general theorems at concrete inputs *)

Section Witnesses.

Existing Instance Jwt.jsonwebtoken.
Existing Instance Jwt.object_sizeof.

(** C3, as amended, on the token without expiry of the 1 MiB cache. *)
Lemma verify_twice_verifies_once_witness :
  let T := "jwtNoExpiration" in
  fits T Jwt.lru /\
  (let r1 := verify T AUndefined Jwt.lru in
   let r2 := verify T AUndefined (snd r1) in
   fst r2 = fst r1 /\
   (List.length (verifier_calls (snd r2))
    <= Datatypes.S (List.length (verifier_calls Jwt.lru)))%nat /\
   (forall w' h, is_string AUndefined = false -> stored T w' = Some h ->
      fst (verify T AUndefined w') = raised (outcome AUndefined (Lru.value h))
      /\ verifier_calls (snd (verify T AUndefined w')) = verifier_calls w'
      /\ stored T (snd (verify T AUndefined w')) = Some h)).
Proof.
  intros T.
  assert (H : fits T Jwt.lru).
  { intros d Hd. vm_compute in Hd. injection Hd as <-. vm_compute.
    discriminate. }
  split; [exact H|].
  exact (verify_twice_verifies_once Jwt.lru T AUndefined H).
Defined.

(** C4, as amended, on the token signed with the wrong secret. *)
Lemma failed_verification_is_cached_witness :
  let T := "jwtWrongSecret" in
  let d := mkDecoded "HS256" (PObj (mkClaims None None Jwt.success))
                     Jwt.secretWrong in
  let e := Jwt.JsonWebTokenError "invalid signature" in
  let w1 := snd (verify T AUndefined Jwt.lru) in
  (is_string AUndefined = false /\ decode T = Some d /\ payload d <> PNull /\
   fst (has T Jwt.lru) = Normal false /\
   verifySync T Jwt.secret None Jwt.dateOrig = inl e /\
   entry_length (Some e, d) T <= Lru.max (cache (this Jwt.lru))) /\
  fst (has T w1) = Normal true /\
  fst (verify T AUndefined w1) = Throw (Error_ e) /\
  fst (verifyAsync_awaited T AUndefined w1) = Throw e /\
  verifier_calls (snd (verify T AUndefined w1)) = [T].
Proof.
  intros T d e w1.
  assert (Hp : payload d <> PNull) by discriminate.
  assert (Hfit : entry_length (Some e, d) T <= Lru.max (cache (this Jwt.lru)))
    by (vm_compute; discriminate).
  assert (Hd : decode T = Some d) by reflexivity.
  assert (Hmiss : fst (has T Jwt.lru) = Normal false) by reflexivity.
  assert (He : verifySync T (secretOrPrivateKey (this Jwt.lru))
                 (options (this Jwt.lru)) (Date_now Jwt.lru) = inl e)
    by reflexivity.
  destruct (failed_verification_is_cached Jwt.lru T AUndefined d e
              eq_refl Hd Hp Hmiss He Hfit)
    as [[_ [Hcalls [Hhas [h [Hst Hval]]]]] [_ Hnext]].
  destruct (Hnext w1 h AUndefined Hst Hval eq_refl)
    as [[Hv Hvc] [[Ha _] _]].
  split; [repeat split; try assumption; reflexivity|].
  split; [exact Hhas|]. split; [exact Hv|]. split; [exact Ha|].
  rewrite Hvc. exact Hcalls.
Defined.

(** C9 on a token with [nbf] 100 s and [exp] 200 s ahead of the clock. *)
Lemma nbf_takes_precedence_witness :
  let T := "jwtNbfExpFuture" in
  let c := mkClaims (Some 1100) (Some 1200) Jwt.success in
  let d := mkDecoded "HS256" (PObj c) Jwt.secret in
  (decode T = Some d /\ 0 <= Date_now Jwt.lru /\
   tolerance (options (this Jwt.lru)) = 0 /\
   flag ignoreNotBefore (options (this Jwt.lru)) = false /\
   Date_now Jwt.lru / 1000 < 1100 /\ 1100 < 1200 /\
   fst (has T Jwt.lru) = Normal false /\
   fst (has T (snd (verify T AUndefined Jwt.lru))) = Normal true) /\
  fst (getMaxAge T (snd (verify T AUndefined Jwt.lru)))
  = Normal (Some (1100 - Date_now Jwt.lru / 1000)).
Proof.
  intros T c d.
  assert (H0 : 0 <= Date_now Jwt.lru) by (vm_compute; discriminate).
  assert (H1 : Date_now Jwt.lru / 1000 < 1100) by reflexivity.
  assert (H2 : 1100 < 1200) by reflexivity.
  assert (Hd : decode T = Some d) by reflexivity.
  assert (Hmiss : fst (has T Jwt.lru) = Normal false) by reflexivity.
  assert (Hhit : fst (has T (snd (verify T AUndefined Jwt.lru))) = Normal true)
    by reflexivity.
  split; [repeat split; try assumption; reflexivity|].
  exact (nbf_takes_precedence Jwt.lru T AUndefined d c 1100 1200
           Hd eq_refl eq_refl eq_refl H0 eq_refl eq_refl H1 H2
           eq_refl Hmiss Hhit).
Defined.

(** C10 with a verifier that returns a value of its own: the caller still
    gets the decoded payload. *)
Lemma result_is_the_unverified_decode_witness :
  let T := "jwtNoExpiration" in
  let claims := PObj (mkClaims None None Jwt.success) in
  Reachable (V := Jwt.stamping) Jwt.lru /\
  @verifySync Jwt.stamping T Jwt.secret None Jwt.dateOrig
  = inr (PStr "verified") /\
  fst (verify (V := Jwt.stamping) T AUndefined Jwt.lru)
  = Normal (SPayload claims) /\
  exists d, @decode Jwt.stamping T = Some d /\
            SPayload claims = shape AUndefined d.
Proof.
  intros T claims.
  assert (Hr : Reachable (V := Jwt.stamping) Jwt.lru) by apply R_new.
  repeat split; [exact Hr|].
  assert (Hv : verify (V := Jwt.stamping) T AUndefined Jwt.lru
               = (Normal (SPayload claims),
                  snd (verify (V := Jwt.stamping) T AUndefined Jwt.lru)))
    by reflexivity.
  exact (proj1 (result_is_the_unverified_decode
                  (V := Jwt.stamping) Jwt.lru T AUndefined Hr)
           (SPayload claims)
           (snd (verify (V := Jwt.stamping) T AUndefined Jwt.lru))
           Hv).
Defined.

End Witnesses.

(** * Further properties of the code *)

(** ** The derivation of the time-to-live *)

Section Derivation.



End Derivation.

(** ** One engine behind three calling conventions *)

Section Conventions.

Context {V : Verifier} {S : SizeOf}.

Lemma callback_args_resolved o w :
  callback_args (Resolved o) w = (Normal (error o, result o), w).
Proof. reflexivity. Qed.

Lemma callback_args_settling token val ttl o w :
  callback_args (Settling token val ttl o) w
  = (Normal (error o, result o), written token val ttl w).
Proof. reflexivity. Qed.

(** The blocking call, the awaited [verifyAsync] and the call with a
    callback, started in the same world, agree.  Either all three fail at
    once with the same error and leave the world untouched, or there is
    one outcome [{error, result}] that the blocking call raises or
    returns, the promise rejects or fulfils with, and the callback
    receives, and all three leave the same world behind. *)
Theorem calling_conventions_agree token complete w :
  (exists e,
     verify token complete w = (Throw e, w) /\
     verifyAsync_awaited token complete w = (Throw e, w) /\
     verify_callback token complete w = (Throw e, w)) \/
  (exists o w',
     verify token complete w = (raised o, w') /\
     verifyAsync_awaited token complete w = (rejected o, w') /\
     exists p w1,
       verify_callback token complete w = (Normal p, w1) /\
       callback_args p w1 = (Normal (error o, result o), w')).
Proof.
  unfold verifyAsync_awaited, verifyAsync, verify_callback, verify, bind.
  destruct (is_string complete) eqn:Hs.
  - left. exists usage_error. now rewrite !sym_verify_string.
  - destruct (stored token w) as [h|] eqn:Hst.
    + right. exists (outcome complete (Lru.value h)), (touched token h w).
      rewrite (sym_verify_hit _ _ false _ _ Hs Hst).
      rewrite (sym_verify_hit _ _ true _ _ Hs Hst).
      rewrite await_resolved. unfold raised, ret.
      repeat split; [now destruct (error _)|].
      eexists. eexists. split; reflexivity.
    + destruct (decode token) as [d|] eqn:Hd.
      * pose proof (sym_getMaxAge_world (payload d) w) as Hw.
        destruct (sym_getMaxAge (payload d) w) as [[ttl|e] w0] eqn:E;
          simpl in Hw; subst w0.
        -- right. exists (outcome complete (caught token w, d)),
             (written token (caught token w, d) ttl (logged token w)).
           rewrite (sym_verify_miss _ _ false _ _ _ Hs Hst Hd E).
           rewrite (sym_verify_miss _ _ true _ _ _ Hs Hst Hd E).
           rewrite await_settling. unfold raised, ret.
           repeat split; [now destruct (error _)|].
           eexists. eexists. split; reflexivity.
        -- left. exists e.
           now rewrite !(sym_verify_throws_getMaxAge _ _ _ _ _ _ Hs Hst Hd E).
      * left. eexists. now rewrite !(sym_verify_undecodable _ _ _ _ Hs Hst Hd).
Qed.

End Conventions.

(** ** What one call does to the cache and to the verifier *)

Section Calls.

Context {V : Verifier} {S : SizeOf}.

Lemma verify_undecodable token complete w :
  is_string complete = false -> stored token w = None ->
  decode token = None ->
  verify token complete w
  = (Throw (TypeError "Cannot read property 'payload' of null"), w).
Proof.
  intros Hs Hst Hd. unfold verify, bind.
  now rewrite (sym_verify_undecodable _ _ _ _ Hs Hst Hd).
Qed.

Lemma verify_throws_getMaxAge token complete w d e :
  is_string complete = false -> stored token w = None ->
  decode token = Some d ->
  sym_getMaxAge (payload d) w = (Throw e, w) ->
  verify token complete w = (Throw e, w).
Proof.
  intros Hs Hst Hd E. unfold verify, bind.
  now rewrite (sym_verify_throws_getMaxAge _ _ _ _ _ _ Hs Hst Hd E).
Qed.

Lemma raised_outcome complete val :
  raised (outcome complete val)
  = match fst val with
    | Some e => Throw (Error_ e)
    | None => Normal (shape complete (snd val))
    end.
Proof. reflexivity. Qed.

(** Awaited at once, [verifyAsync] leaves the world the blocking call
    leaves. *)
Lemma awaited_world token complete w :
  snd (verifyAsync_awaited token complete w) = snd (verify token complete w).
Proof.
  unfold verifyAsync_awaited, verifyAsync, verify, bind.
  destruct (sym_verify_cases token complete false w)
    as [[Hs H] | [Hs [[h [Hst H]] | [Hst [[Hd H] | [d [Hd [[e [E H]] |
        [ttl [E H]]]]]]]]]]; rewrite H.
  - now rewrite sym_verify_string.
  - rewrite (sym_verify_hit _ _ true _ _ Hs Hst), await_resolved.
    simpl. now destruct (fst (Lru.value h)).
  - now rewrite (sym_verify_undecodable _ _ _ _ Hs Hst Hd).
  - now rewrite (sym_verify_throws_getMaxAge _ _ _ _ _ _ Hs Hst Hd E).
  - rewrite (sym_verify_miss _ _ true _ _ _ Hs Hst Hd E), await_settling.
    simpl. now destruct (caught token w).
Qed.

(** The [complete] flag belongs to the call, not to the entry: two
    blocking calls that differ only in a non-string [complete] leave the
    same world behind, raise the same error if any, and otherwise return
    the two shapes of one decode. *)
Theorem complete_flag_is_per_call token c1 c2 w :
  is_string c1 = false -> is_string c2 = false ->
  snd (verify token c1 w) = snd (verify token c2 w) /\
  (forall e, fst (verify token c1 w) = Throw e ->
             fst (verify token c2 w) = Throw e) /\
  (forall r, fst (verify token c1 w) = Normal r ->
     exists d, r = shape c1 d /\ fst (verify token c2 w) = Normal (shape c2 d)).
Proof.
  intros H1 H2. destruct (stored token w) as [h|] eqn:Hst.
  - rewrite (verify_hit _ _ _ _ H1 Hst), (verify_hit _ _ _ _ H2 Hst).
    rewrite !raised_outcome. simpl.
    destruct (fst (Lru.value h)); repeat split; try discriminate; auto.
    intros r [= <-]. now eexists.
  - destruct (decode token) as [d|] eqn:Hd.
    + pose proof (sym_getMaxAge_world (payload d) w) as Hw.
      destruct (sym_getMaxAge (payload d) w) as [[ttl|e] w0] eqn:E;
        simpl in Hw; subst w0.
      * rewrite (verify_miss _ _ _ _ _ H1 Hst Hd E).
        rewrite (verify_miss _ _ _ _ _ H2 Hst Hd E).
        rewrite !raised_outcome. simpl.
        destruct (caught token w); repeat split; try discriminate; auto.
        intros r [= <-]. now eexists.
      * rewrite (verify_throws_getMaxAge _ _ _ _ _ H1 Hst Hd E).
        rewrite (verify_throws_getMaxAge _ _ _ _ _ H2 Hst Hd E).
        repeat split; auto. discriminate.
    + rewrite (verify_undecodable _ _ _ H1 Hst Hd).
      rewrite (verify_undecodable _ _ _ H2 Hst Hd).
      repeat split; auto. discriminate.
Qed.

(** One call, blocking or awaited, asks the verifier at most once, for its
    own token, and only on a miss of a decodable token whose payload is
    not [null]; the clock is not touched. *)
Theorem verifier_is_asked_only_on_a_decodable_miss token complete w :
  forall call,
    call = verify token complete \/
    call = verifyAsync_awaited token complete ->
    Date_now (snd (call w)) = Date_now w /\
    (verifier_calls (snd (call w)) = verifier_calls w \/
     (verifier_calls (snd (call w)) = token :: verifier_calls w /\
      is_string complete = false /\ stored token w = None /\
      exists d, decode token = Some d /\ payload d <> PNull)).
Proof.
  intros call Hcall.
  assert (H : Date_now (snd (verify token complete w)) = Date_now w /\
    (verifier_calls (snd (verify token complete w)) = verifier_calls w \/
     (verifier_calls (snd (verify token complete w))
      = token :: verifier_calls w /\
      is_string complete = false /\ stored token w = None /\
      exists d, decode token = Some d /\ payload d <> PNull))).
  { destruct (verify_cases token complete w)
      as [[e H] | [[Hs [h [Hst H]]] | [Hs [Hst [d [ttl [Hd [Httl H]]]]]]]];
      rewrite H; simpl; split; auto.
    right. repeat split; auto. exists d. split; [exact Hd|].
    intros Hp. rewrite Hp in Httl. discriminate. }
  destruct Hcall as [-> | ->]; [exact H|]. now rewrite awaited_world.
Qed.

(** The write of a miss and the next lookup.  On a miss of a decodable
    token whose payload is not [null], an entry within the budget is held
    right after the call, under the token, weighed by the constructor's
    [length] function and carrying the pair of the verifier's error (or
    [null]) and the decode; an entry over the budget leaves nothing under
    the token. *)
Theorem miss_stores_what_the_verifier_answered token complete w d :
  is_string complete = false -> stored token w = None ->
  decode token = Some d -> payload d <> PNull ->
  let w1 := snd (verify token complete w) in
  let len := entry_length (caught token w, d) token in
  (len <= Lru.max (cache (this w)) ->
     exists h, stored token w1 = Some h /\ Lru.key h = token /\
       Lru.value h = (caught token w, d) /\ Lru.length h = len) /\
  (Lru.max (cache (this w)) < len ->
     Lru.lookup token (Lru.items (cache (this w1))) = None).
Proof.
  intros Hs Hst Hd Hp w1 len.
  destruct (sym_getMaxAge_normal (payload d) w Hp) as [ttl Httl].
  subst w1. rewrite (verify_miss _ _ _ _ _ Hs Hst Hd Httl). cbn [snd]. split.
  - intros Hfit.
    destruct (stored_written token (caught token w, d) ttl (logged token w))
      as [h [Hw [Hv _]]]; [exact Hfit| |].
    + intros m ->. apply (sym_getMaxAge_positive (payload d) w).
      now rewrite Httl.
    + exists h. pose proof (stored_written_inv _ _ _ _ _ Hw) as Hh.
      repeat split; auto; now subst h.
  - intros Hbig. unfold written. simpl. now apply set_lookup_oversized.
Qed.

(** Two calls of [verifyAsync] for a token that is not cached, the second
    made before the promise of the first has run its write, both ask the
    verifier, and neither has touched the cache yet. *)
Theorem unawaited_calls_each_ask_the_verifier token complete w d :
  is_string complete = false -> stored token w = None ->
  decode token = Some d -> payload d <> PNull ->
  let r1 := verifyAsync token complete w in
  let r2 := verifyAsync token complete (snd r1) in
  fst (has token (snd r1)) = Normal false /\
  verifier_calls (snd r2) = token :: token :: verifier_calls w /\
  cache (this (snd r2)) = cache (this w).
Proof.
  intros Hs Hst Hd Hp r1 r2.
  destruct (sym_getMaxAge_normal (payload d) w Hp) as [ttl Httl].
  destruct (sym_getMaxAge_normal (payload d) (logged token w) Hp)
    as [ttl' Httl'].
  assert (Hst' : stored token (logged token w) = None) by exact Hst.
  subst r2 r1. rewrite (verifyAsync_miss _ _ _ _ _ Hs Hst Hd Httl). cbn [snd].
  rewrite (verifyAsync_miss _ _ _ _ _ Hs Hst' Hd Httl'). cbn [snd].
  rewrite has_stored, Hst'. repeat split.
Qed.

End Calls.

(** ** The life of an entry *)

Section Lifetime.

Context {V : Verifier} {S : SizeOf}.

Lemma written_lookup token val ttl w :
  entry_length val token <= Lru.max (cache (this w)) ->
  (forall m, ttl = Some m -> 0 < m) ->
  Lru.lookup token (Lru.items (cache (this (written token val ttl w))))
  = Some (Lru.mkHit token val (entry_length val token)
            (match ttl with Some _ => Date_now w | None => 0 end)
            (match ttl with Some m => m | None => 0 end)).
Proof.
  intros Hfit Hpos. unfold written. simpl.
  rewrite (set_lookup_fits _ (Date_now w) token val ttl _ Hfit).
  - destruct ttl as [m|]; [|reflexivity]. specialize (Hpos m eq_refl).
    replace (m =? 0) with false; [reflexivity|].
    symmetry. apply Z.eqb_neq. lia.
  - unfold Lru.isStale. simpl. destruct ttl as [m|]; [|reflexivity].
    specialize (Hpos m eq_refl).
    replace (m =? 0) with false by (symmetry; apply Z.eqb_neq; lia).
    apply Z.ltb_ge. lia.
Qed.

(** An entry written with a time-to-live of [m] milliseconds is served as
    long as fewer than [m] milliseconds have passed, and [getMaxAge]
    counts the whole seconds left; once more than [m] milliseconds have
    passed, [has] is false. *)
Theorem entry_lives_for_its_ttl token complete w d m :
  is_string complete = false -> stored token w = None ->
  decode token = Some d ->
  sym_getMaxAge (payload d) w = (Normal (Some m), w) ->
  entry_length (caught token w, d) token <= Lru.max (cache (this w)) ->
  forall dt,
    let later := advance dt (snd (verify token complete w)) in
    (dt < m ->
       fst (has token later) = Normal true /\
       fst (getMaxAge token later) = Normal (Some ((m - dt) / 1000)) /\
       0 <= (m - dt) / 1000) /\
    (m < dt -> fst (has token later) = Normal false).
Proof.
  intros Hs Hst Hd Httl Hfit dt later.
  assert (Hpos : forall m', Some m = Some m' -> 0 < m').
  { intros m' [= <-]. apply (sym_getMaxAge_positive (payload d) w).
    now rewrite Httl. }
  pose proof (written_lookup token (caught token w, d) (Some m)
                (logged token w) Hfit Hpos) as L.
  assert (Hm : 0 < m) by now apply Hpos.
  subst later. rewrite (verify_miss _ _ _ _ _ Hs Hst Hd Httl). cbn [snd].
  assert (Hstale : exists h,
            Lru.now h = Date_now w /\ Lru.maxAge h = m /\
            stored token
              (advance dt (written token (caught token w, d) (Some m)
                             (logged token w)))
            = if m <? dt then None else Some h).
  { exists (Lru.mkHit token (caught token w, d)
              (entry_length (caught token w, d) token) (Date_now w) m).
    split; [reflexivity|]. split; [reflexivity|].
    unfold stored, advance. cbn [this cache Date_now]. rewrite L.
    unfold Lru.isStale, written, with_cache, logged.
    cbn [Lru.maxAge Lru.now Date_now].
    replace (m =? 0) with false by (symmetry; apply Z.eqb_neq; lia).
    now replace (Date_now w + dt - Date_now w) with dt by lia. }
  destruct Hstale as [h [Hnow [Hage Hstale]]].
  split.
  - intros Hdt.
    replace (m <? dt) with false in Hstale by (symmetry; apply Z.ltb_ge; lia).
    rewrite has_stored, Hstale, (getMaxAge_stored _ _ _ Hstale).
    rewrite Hnow, Hage. unfold advance, written, with_cache, logged.
    cbn [fst Date_now].
    replace (Date_now w + m - (Date_now w + dt)) with (m - dt) by lia.
    repeat split. apply Z.div_pos; lia.
  - intros Hdt.
    replace (m <? dt) with true in Hstale by (symmetry; apply Z.ltb_lt; lia).
    now rewrite has_stored, Hstale.
Qed.

(** An entry written without a time-to-live (no claim to go by: a scalar
    payload, no [nbf] or [exp] ahead, or both checks switched off) is
    served however far the clock moves. *)
Theorem entry_without_ttl_never_expires token complete w d :
  is_string complete = false -> stored token w = None ->
  decode token = Some d ->
  sym_getMaxAge (payload d) w = (Normal None, w) ->
  entry_length (caught token w, d) token <= Lru.max (cache (this w)) ->
  forall dt,
    fst (has token (advance dt (snd (verify token complete w)))) = Normal true.
Proof.
  intros Hs Hst Hd Httl Hfit dt.
  assert (Hpos : forall m', @None Z = Some m' -> 0 < m') by discriminate.
  pose proof (written_lookup token (caught token w, d) None
                (logged token w) Hfit Hpos) as L.
  rewrite (verify_miss _ _ _ _ _ Hs Hst Hd Httl). cbn [snd].
  rewrite has_stored. unfold stored. simpl advance. cbn [this cache].
  unfold advance. cbn [this cache Date_now]. unfold written in *.
  cbn [this cache with_cache] in *. now rewrite L.
Qed.

End Lifetime.

(** ** What a call leaves alone *)

Section Frame.

Context {V : Verifier} {S : SizeOf}.

Lemma lookup_del_other k k' l :
  k' <> k -> Lru.lookup k' (Lru.del k l) = Lru.lookup k' l.
Proof.
  intros Hk. induction l as [|a l IH]; simpl; [reflexivity|].
  destruct (String.eqb (Lru.key a) k) eqn:E; simpl.
  - apply String.eqb_eq in E.
    replace (String.eqb (Lru.key a) k') with false; [exact IH|].
    symmetry. apply String.eqb_neq. congruence.
  - destruct (String.eqb (Lru.key a) k'); [reflexivity | exact IH].
Qed.

Lemma lookup_app_some k a b h :
  Lru.lookup k a = Some h -> Lru.lookup k (a ++ b) = Some h.
Proof.
  induction a as [|x a IH]; simpl; [discriminate|].
  destruct (String.eqb (Lru.key x) k); [trivial | exact IH].
Qed.

Lemma lookup_trim_some budget k l h :
  Lru.lookup k (Lru.trim budget l) = Some h -> Lru.lookup k l = Some h.
Proof.
  intros H. destruct (trim_prefix budget l) as [s Hs].
  rewrite Hs. now apply lookup_app_some.
Qed.

Lemma lookup_cons_other k' hit l :
  Lru.key hit <> k' -> Lru.lookup k' (hit :: l) = Lru.lookup k' l.
Proof.
  intros Hk. simpl.
  replace (String.eqb (Lru.key hit) k') with false; [reflexivity|].
  symmetry. now apply String.eqb_neq.
Qed.

Lemma set_lookup_other len date k v ttl c k' h :
  k' <> k ->
  Lru.lookup k' (Lru.items (Lru.set len date k v ttl c)) = Some h ->
  Lru.lookup k' (Lru.items c) = Some h.
Proof.
  intros Hk. unfold Lru.set.
  destruct (Lru.lookup k (Lru.items c)); destruct (Lru.max c <? len);
    simpl; try (now rewrite lookup_del_other); auto.
  - destruct (Lru.isStale _ _); simpl; intros H;
      apply lookup_trim_some in H.
    + now rewrite lookup_del_other in H.
    + rewrite lookup_cons_other in H by (simpl; congruence).
      now rewrite lookup_del_other in H.
  - intros H. apply lookup_trim_some in H.
    now rewrite lookup_cons_other in H by (simpl; congruence).
Qed.

(** A call for one token never creates or alters the entry of another:
    whatever is held under another token afterwards was held, the same,
    before.  (It may be gone: the write can evict it.) *)
Theorem other_entries_are_left_alone token complete w token' h :
  token' <> token ->
  forall call,
    call = verify token complete \/
    call = verifyAsync_awaited token complete ->
    stored token' (snd (call w)) = Some h -> stored token' w = Some h.
Proof.
  intros Hk call Hcall.
  assert (H : stored token' (snd (verify token complete w)) = Some h ->
              stored token' w = Some h).
  { destruct (verify_cases token complete w)
      as [[e H] | [[Hs [h0 [Hst H]]] | [Hs [Hst [d [ttl [Hd [Httl H]]]]]]]];
      rewrite H; cbn [snd]; auto.
    - unfold stored, touched. simpl.
      assert (Lru.key h0 = token).
      { unfold stored in Hst.
        destruct (Lru.lookup token _) as [x|] eqn:L; [|discriminate].
        destruct (Lru.isStale _ x); [discriminate|]. injection Hst as <-.
        now apply lookup_key with (Lru.items (cache (this w))). }
      replace (String.eqb (Lru.key h0) token') with false
        by (symmetry; apply String.eqb_neq; congruence).
      now rewrite lookup_del_other.
    - unfold stored, written. simpl.
      destruct (Lru.lookup token' (Lru.items (Lru.set _ _ _ _ _ _)))
        as [x|] eqn:L; [|discriminate].
      now rewrite (set_lookup_other _ _ _ _ _ _ _ _ Hk L). }
  destruct Hcall as [-> | ->]; [exact H|]. now rewrite awaited_world.
Qed.

End Frame.

(** ** What holds of the store in every reachable world *)

Section Store.

Context {V : Verifier} {S : SizeOf}.

Lemma stored_lookup token w h :
  stored token w = Some h ->
  Lru.lookup token (Lru.items (cache (this w))) = Some h.
Proof.
  unfold stored. destruct (Lru.lookup token _) as [x|]; [|discriminate].
  destruct (Lru.isStale _ x); [discriminate | now intros [= ->]].
Qed.

(** A property of the store that holds when it is empty and that a hit
    and a write keep holds in every reachable world. *)
Lemma Reachable_store_invariant (P : Lru.t -> Prop) :
  (forall size, P (Lru.mkLru size [])) ->
  (forall c k h, P c -> Lru.lookup k (Lru.items c) = Some h ->
     P (Lru.mkLru (Lru.max c) (h :: Lru.del k (Lru.items c)))) ->
  (forall c date k v ttl, P c ->
     P (Lru.set (entry_length v k) date k v ttl c)) ->
  forall w, Reachable w -> P (cache (this w)).
Proof.
  intros Hnew Hget Hset w Hr.
  induction Hr as [size secret opts t | w dt _ IH _
                  | w token complete promise _ IH
                  | w0 w token complete p _ _ _ _ IH].
  - apply Hnew.
  - exact IH.
  - destruct (sym_verify_cases token complete promise w)
      as [[_ ->] | [_ [[h [Hst ->]] | [_ [[_ ->] | [d [Hd [[e [_ ->]] |
          [ttl [_ ->]]]]]]]]]]; simpl; auto.
    + apply Hget; [exact IH | now apply stored_lookup].
    + destruct promise; simpl; [exact IH|]. now apply Hset.
  - destruct p as [o | tok val ttl o]; simpl; [exact IH|].
    unfold bind, cache_set, modify, ret. simpl. now apply Hset.
Qed.

Lemma lookup_none_not_In k l :
  Lru.lookup k l = None -> ~ In k (map Lru.key l).
Proof.
  induction l as [|a l IH]; simpl; [tauto|].
  destruct (String.eqb (Lru.key a) k) eqn:E; [discriminate|].
  apply String.eqb_neq in E. intros L [H|H]; [congruence | now apply IH].
Qed.

Lemma not_In_del k l : ~ In k (map Lru.key (Lru.del k l)).
Proof. apply lookup_none_not_In, lookup_del. Qed.

Lemma In_del k x l :
  In x (map Lru.key (Lru.del k l)) -> In x (map Lru.key l).
Proof.
  rewrite !in_map_iff. intros [h [Hx Hh]]. apply filter_In in Hh.
  exists h. tauto.
Qed.

Lemma NoDup_del k l :
  NoDup (map Lru.key l) -> NoDup (map Lru.key (Lru.del k l)).
Proof.
  induction l as [|a l IH]; simpl; [trivial|].
  intros H. inversion H as [|x xs Hin Hnd]; subst.
  destruct (negb (String.eqb (Lru.key a) k)); simpl; [|now apply IH].
  constructor; [|now apply IH]. intros Hx. apply Hin.
  now apply In_del with k.
Qed.

Lemma NoDup_trim budget l :
  NoDup (map Lru.key l) -> NoDup (map Lru.key (Lru.trim budget l)).
Proof.
  intros H. destruct (trim_prefix budget l) as [s Hs].
  rewrite Hs, map_app in H. now apply NoDup_app_remove_r in H.
Qed.

Lemma unique_keys_reachable w : Reachable w -> unique_keys (cache (this w)).
Proof.
  apply Reachable_store_invariant; unfold unique_keys; simpl.
  - intros _. constructor.
  - intros c k h H L. constructor; [|now apply NoDup_del].
    rewrite (lookup_key _ _ _ L). apply not_In_del.
  - intros c date k v ttl H. unfold Lru.set.
    destruct (Lru.lookup k (Lru.items c)) eqn:L;
      destruct (Lru.max c <? _); simpl; auto using NoDup_del.
    + destruct (Lru.isStale _ _); simpl; apply NoDup_trim;
        [now apply NoDup_del|].
      simpl. constructor; [apply not_In_del | now apply NoDup_del].
    + apply NoDup_trim. simpl. constructor; [|exact H].
      now apply lookup_none_not_In.
Qed.

Lemma dump_stale_unique date k c h :
  unique_keys c -> Lru.lookup k (Lru.items c) = Some h ->
  Lru.isStale date h = true ->
  filter (fun e => String.eqb (fst (fst e)) k) (Lru.dump date c) = [].
Proof.
  unfold unique_keys, Lru.dump.
  induction (Lru.items c) as [|a l IH]; simpl; [discriminate|].
  intros Hnd. inversion Hnd as [|x xs Hin Hnd']; subst.
  destruct (String.eqb (Lru.key a) k) eqn:E.
  - intros [= ->] Hs. rewrite Hs. simpl.
    apply String.eqb_eq in E. rewrite E in Hin.
    assert (L : Lru.lookup k l = None).
    { destruct (Lru.lookup k l) as [x|] eqn:L; [|reflexivity].
      exfalso. apply Hin. rewrite <- (lookup_key _ _ _ L).
      apply in_map. now apply lookup_In with k. }
    now apply (dump_none date k (Lru.mkLru 0 l)).
  - intros L Hs. destruct (Lru.isStale date a); simpl; [|rewrite E];
      now apply IH.
Qed.

(** In every reachable world the two observers agree: [getMaxAge(token)]
    is [null] exactly when [has(token)] is false. *)
Theorem getMaxAge_is_null_exactly_when_has_is_false w token :
  Reachable w ->
  (fst (getMaxAge token w) = Normal None <->
   fst (has token w) = Normal false).
Proof.
  intros Hr. apply unique_keys_reachable in Hr. rewrite has_stored.
  destruct (stored token w) as [h|] eqn:Hst.
  - rewrite (getMaxAge_stored _ _ _ Hst). simpl. split; discriminate.
  - split; [reflexivity|]. intros _. unfold stored in Hst.
    destruct (Lru.lookup token _) as [h|] eqn:L.
    + destruct (Lru.isStale (Date_now w) h) eqn:E; [|discriminate].
      unfold getMaxAge, bind, gets.
      now rewrite (dump_stale_unique _ _ _ _ Hr L E).
    + now rewrite (getMaxAge_absent _ _ L).
Qed.

(** In every reachable world no two entries are held under one token, and
    each entry weighs what the constructor's [length] function says:
    two bytes, the size of the stored pair and the length of the token. *)
Theorem entries_are_unique_and_weighed w :
  Reachable w ->
  unique_keys (cache (this w)) /\ weighed (cache (this w)).
Proof.
  intros Hr. split; [now apply unique_keys_reachable|].
  revert w Hr. apply Reachable_store_invariant; unfold weighed; simpl.
  - intros _. constructor.
  - intros c k h H L. constructor; [|now apply Forall_del].
    rewrite Forall_forall in H. apply H. now apply lookup_In with k.
  - intros c date k v ttl H. apply set_Forall; [|exact H]. reflexivity.
Qed.

End Store.

(** ** The byte budget *)

Section Budget.

Context {V : Verifier} {S : SizeOf}.









Lemma trim_lru_keeps_last_two budget a b l :
  Lru.length a + Lru.length b <= budget ->
  exists l', Lru.trim_lru budget (l ++ [b; a]) = l' ++ [b; a].
Proof.
  intros Hfit. induction l as [|x l [l' IH]].
  - exists []. simpl.
    replace (budget <? Lru.length b + (Lru.length a + 0)) with false;
      [reflexivity|]. symmetry. apply Z.ltb_ge. lia.
  - change ((x :: l) ++ [b; a]) with (x :: (l ++ [b; a])).
    cbn [Lru.trim_lru]. destruct (budget <? Lru.total (x :: l ++ [b; a])).
    + now exists l'.
    + now exists (x :: l).
Qed.

Lemma trim_keeps_two budget a b l :
  Lru.length a + Lru.length b <= budget ->
  exists l', Lru.trim budget (a :: b :: l) = a :: b :: l'.
Proof.
  intros Hfit. unfold Lru.trim. simpl rev. rewrite <- app_assoc. simpl.
  destruct (trim_lru_keeps_last_two budget a b (rev l) Hfit) as [l' ->].
  exists (rev l'). rewrite rev_app_distr. reflexivity.
Qed.

(** Least recently used first.  An entry that has just been served
    survives the write of the next miss whenever the two fit the budget
    together: older entries are evicted before it. *)
Theorem served_entry_survives_the_next_write T T2 c c2 w h d2 :
  is_string c = false -> is_string c2 = false -> T2 <> T ->
  stored T w = Some h ->
  let w1 := snd (verify T c w) in
  stored T2 w1 = None -> decode T2 = Some d2 -> payload d2 <> PNull ->
  Lru.length h + entry_length (caught T2 w1, d2) T2
    <= Lru.max (cache (this w)) ->
  stored T (snd (verify T2 c2 w1)) = Some h.
Proof.
  intros Hs Hs2 Hne Hst w1. subst w1.
  rewrite (verify_hit _ _ _ _ Hs Hst). cbn [snd].
  intros Hst2 Hd2 Hp2 Hfit.
  destruct (sym_getMaxAge_normal (payload d2) (touched T h w) Hp2)
    as [ttl Httl].
  rewrite (verify_miss _ _ _ _ _ Hs2 Hst2 Hd2 Httl). cbn [snd].
  assert (Hk : Lru.key h = T).
  { apply lookup_key with (Lru.items (cache (this w))).
    now apply stored_lookup. }
  assert (Hlive : Lru.isStale (Date_now w) h = false).
  { unfold stored in Hst.
    destruct (Lru.lookup T _) as [x|]; [|discriminate].
    destruct (Lru.isStale _ x) eqn:E; [discriminate|].
    now injection Hst as <-. }
  assert (Hpos : forall m, ttl = Some m -> 0 < m).
  { intros m ->. apply (sym_getMaxAge_positive (payload d2) (touched T h w)).
    now rewrite Httl. }
  set (val := (caught T2 (touched T h w), d2)) in *.
  set (rest := Lru.del T (Lru.items (cache (this w)))).
  assert (L : Lru.lookup T
                (Lru.items (Lru.set (entry_length val T2) (Date_now w) T2 val
                   ttl (Lru.mkLru (Lru.max (cache (this w))) (h :: rest))))
              = Some h).
  { unfold Lru.set. cbn [Lru.items Lru.max].
    set (age := match ttl with Some m => m | None => 0 end).
    set (hit := Lru.mkHit T2 val (entry_length val T2)
                  (if age =? 0 then 0 else Date_now w) age).
    assert (Hfresh : Lru.isStale (Date_now w) hit = false).
    { unfold Lru.isStale, hit. simpl.
      destruct (age =? 0) eqn:E; [reflexivity|].
      apply Z.ltb_ge. destruct ttl as [m|]; [|discriminate].
      specialize (Hpos m eq_refl). unfold age. lia. }
    assert (Hh : forall l, Lru.lookup T (h :: l) = Some h).
    { intros l. simpl. now rewrite Hk, String.eqb_refl. }
    assert (Hdel : Lru.del T2 (h :: rest) = h :: Lru.del T2 rest).
    { unfold Lru.del. simpl.
      replace (String.eqb (Lru.key h) T2) with false; [reflexivity|].
      symmetry. apply String.eqb_neq. congruence. }
    assert (Hkeep : forall l, exists l',
              Lru.trim (Lru.max (cache (this w))) (hit :: h :: l)
              = hit :: h :: l').
    { intros l. apply trim_keeps_two. unfold hit. simpl. lia. }
    assert (Hhit : forall l, Lru.lookup T (hit :: h :: l) = Some h).
    { intros l. rewrite lookup_cons_other by (simpl; congruence).
      apply Hh. }
    destruct (Lru.lookup T2 (h :: rest));
      destruct (Lru.max (cache (this w)) <? entry_length val T2);
      cbn [Lru.items]; rewrite ?Hdel, ?Hfresh; auto.
    - destruct (Hkeep (Lru.del T2 rest)) as [l' ->]. apply Hhit.
    - destruct (Hkeep rest) as [l' ->]. apply Hhit. }
  unfold stored, written, touched, logged, with_cache.
  cbn [this cache Date_now]. fold rest. rewrite L. now rewrite Hlive.
Qed.

End Budget.

(** ** The further properties at concrete inputs *)

Section FurtherWitnesses.

Existing Instance Jwt.jsonwebtoken.
Existing Instance Jwt.object_sizeof.


Lemma complete_flag_is_per_call_witness :
  let T := "jwtNoExpiration" in
  is_string AUndefined = false /\ is_string (ABool true) = false /\
  snd (verify T AUndefined Jwt.lru) = snd (verify T (ABool true) Jwt.lru).
Proof.
  intros T. split; [reflexivity|]. split; [reflexivity|].
  exact (proj1 (complete_flag_is_per_call T AUndefined (ABool true) Jwt.lru
                  eq_refl eq_refl)).
Defined.

Lemma verifier_is_asked_only_on_a_decodable_miss_witness :
  let T := "jwtWrongSecret" in
  let w1 := snd (verify T AUndefined Jwt.lru) in
  Date_now w1 = Date_now Jwt.lru /\
  (verifier_calls w1 = verifier_calls Jwt.lru \/
   (verifier_calls w1 = T :: verifier_calls Jwt.lru /\
    is_string AUndefined = false /\ stored T Jwt.lru = None /\
    exists d, decode T = Some d /\ payload d <> PNull)).
Proof.
  intros T w1.
  exact (verifier_is_asked_only_on_a_decodable_miss T AUndefined Jwt.lru
           (verify T AUndefined) (or_introl eq_refl)).
Defined.

Lemma miss_stores_what_the_verifier_answered_witness :
  let T := "jwtWrongSecret" in
  let d := mkDecoded "HS256" (PObj (mkClaims None None Jwt.success))
                     Jwt.secretWrong in
  let w1 := snd (verify T AUndefined Jwt.lru) in
  (is_string AUndefined = false /\ stored T Jwt.lru = None /\
   decode T = Some d /\ payload d <> PNull /\
   entry_length (caught T Jwt.lru, d) T <= Lru.max (cache (this Jwt.lru))) /\
  exists h, stored T w1 = Some h /\ Lru.key h = T /\
    Lru.value h = (caught T Jwt.lru, d) /\
    Lru.length h = entry_length (caught T Jwt.lru, d) T.
Proof.
  intros T d w1.
  assert (Hst : stored T Jwt.lru = None) by reflexivity.
  assert (Hd : decode T = Some d) by reflexivity.
  assert (Hp : payload d <> PNull) by discriminate.
  assert (Hfit : entry_length (caught T Jwt.lru, d) T
                 <= Lru.max (cache (this Jwt.lru)))
    by (vm_compute; discriminate).
  split; [repeat split; try assumption|].
  exact (proj1 (miss_stores_what_the_verifier_answered T AUndefined Jwt.lru d
                  eq_refl Hst Hd Hp) Hfit).
Defined.

Lemma unawaited_calls_each_ask_the_verifier_witness :
  let T := "jwtNoExpiration" in
  let d := mkDecoded "HS256" (PObj (mkClaims None None Jwt.success))
                     Jwt.secret in
  let r1 := verifyAsync T AUndefined Jwt.lru in
  let r2 := verifyAsync T AUndefined (snd r1) in
  (is_string AUndefined = false /\ stored T Jwt.lru = None /\
   decode T = Some d /\ payload d <> PNull) /\
  fst (has T (snd r1)) = Normal false /\
  verifier_calls (snd r2) = T :: T :: verifier_calls Jwt.lru /\
  cache (this (snd r2)) = cache (this Jwt.lru).
Proof.
  intros T d r1 r2.
  assert (Hst : stored T Jwt.lru = None) by reflexivity.
  assert (Hd : decode T = Some d) by reflexivity.
  assert (Hp : payload d <> PNull) by discriminate.
  split; [repeat split; try assumption|].
  exact (unawaited_calls_each_ask_the_verifier T AUndefined Jwt.lru d
           eq_refl Hst Hd Hp).
Defined.

Lemma entry_lives_for_its_ttl_witness :
  let T := "jwtExpFuture" in
  let d := mkDecoded "HS256" (PObj (mkClaims None (Some 1100) Jwt.success))
                     Jwt.secret in
  let later := advance 50000 (snd (verify T AUndefined Jwt.lru)) in
  (is_string AUndefined = false /\ stored T Jwt.lru = None /\
   decode T = Some d /\
   sym_getMaxAge (payload d) Jwt.lru = (Normal (Some 100000), Jwt.lru) /\
   entry_length (caught T Jwt.lru, d) T <= Lru.max (cache (this Jwt.lru)) /\
   50000 < 100000) /\
  fst (has T later) = Normal true /\
  fst (getMaxAge T later) = Normal (Some ((100000 - 50000) / 1000)) /\
  0 <= (100000 - 50000) / 1000.
Proof.
  intros T d later.
  assert (Hst : stored T Jwt.lru = None) by reflexivity.
  assert (Hd : decode T = Some d) by reflexivity.
  assert (Httl : sym_getMaxAge (payload d) Jwt.lru
                 = (Normal (Some 100000), Jwt.lru)) by reflexivity.
  assert (Hfit : entry_length (caught T Jwt.lru, d) T
                 <= Lru.max (cache (this Jwt.lru)))
    by (vm_compute; discriminate).
  assert (Hdt : 50000 < 100000) by reflexivity.
  split; [repeat split; try assumption|].
  exact (proj1 (entry_lives_for_its_ttl T AUndefined Jwt.lru d 100000
                  eq_refl Hst Hd Httl Hfit 50000) Hdt).
Defined.

Lemma entry_without_ttl_never_expires_witness :
  let T := "jwtString" in
  let d := mkDecoded "HS256" (PStr "hi") Jwt.secret in
  (is_string AUndefined = false /\ stored T Jwt.lru = None /\
   decode T = Some d /\
   sym_getMaxAge (payload d) Jwt.lru = (Normal None, Jwt.lru) /\
   entry_length (caught T Jwt.lru, d) T <= Lru.max (cache (this Jwt.lru))) /\
  fst (has T (advance 1000000000 (snd (verify T AUndefined Jwt.lru))))
  = Normal true.
Proof.
  intros T d.
  assert (Hst : stored T Jwt.lru = None) by reflexivity.
  assert (Hd : decode T = Some d) by reflexivity.
  assert (Httl : sym_getMaxAge (payload d) Jwt.lru = (Normal None, Jwt.lru))
    by reflexivity.
  assert (Hfit : entry_length (caught T Jwt.lru, d) T
                 <= Lru.max (cache (this Jwt.lru)))
    by (vm_compute; discriminate).
  split; [repeat split; try assumption|].
  exact (entry_without_ttl_never_expires T AUndefined Jwt.lru d
           eq_refl Hst Hd Httl Hfit 1000000000).
Defined.

Lemma other_entries_are_left_alone_witness :
  let T' := "jwtNoExpiration" in
  let T := "jwtString" in
  let w := snd (verify T' AUndefined Jwt.lru) in
  let h := Lru.mkHit T' (None, mkDecoded "HS256"
                  (PObj (mkClaims None None Jwt.success)) Jwt.secret)
             61 0 0 in
  (T' <> T /\ stored T' (snd (verify T AUndefined w)) = Some h) /\
  stored T' w = Some h.
Proof.
  intros T' T w h.
  assert (Hne : T' <> T) by discriminate.
  assert (Hst : stored T' (snd (verify T AUndefined w)) = Some h)
    by reflexivity.
  split; [split; assumption|].
  exact (other_entries_are_left_alone T AUndefined w T' h Hne
           (verify T AUndefined) (or_introl eq_refl) Hst).
Defined.

Lemma getMaxAge_is_null_exactly_when_has_is_false_witness :
  let w := snd (sym_verify "jwtExpFuture" AUndefined false Jwt.lru) in
  Reachable w /\
  (fst (getMaxAge "jwtExpFuture" (advance 200000 w)) = Normal None <->
   fst (has "jwtExpFuture" (advance 200000 w)) = Normal false).
Proof.
  intros w.
  assert (Hr : Reachable w) by (apply R_verify, R_new).
  split; [exact Hr|].
  assert (H0 : 0 <= 200000) by discriminate.
  exact (getMaxAge_is_null_exactly_when_has_is_false (advance 200000 w)
           "jwtExpFuture" (R_tick Hr H0)).
Defined.

Lemma entries_are_unique_and_weighed_witness :
  let w := snd (sym_verify "jwtExpFuture" AUndefined false Jwt.lru) in
  Reachable w /\ unique_keys (cache (this w)) /\ weighed (cache (this w)).
Proof.
  intros w.
  assert (Hr : Reachable w) by (apply R_verify, R_new).
  split; [exact Hr|]. exact (entries_are_unique_and_weighed w Hr).
Defined.





Lemma served_entry_survives_the_next_write_witness :
  let T := "jwtNoExpiration" in
  let T2 := "jwtString" in
  let w := snd (verify T AUndefined Jwt.lru) in
  let h := Lru.mkHit T (None, mkDecoded "HS256"
                  (PObj (mkClaims None None Jwt.success)) Jwt.secret)
             61 0 0 in
  let d2 := mkDecoded "HS256" (PStr "hi") Jwt.secret in
  let w1 := snd (verify T AUndefined w) in
  (is_string AUndefined = false /\ T2 <> T /\ stored T w = Some h /\
   stored T2 w1 = None /\ decode T2 = Some d2 /\ payload d2 <> PNull /\
   Lru.length h + entry_length (caught T2 w1, d2) T2
     <= Lru.max (cache (this w))) /\
  stored T (snd (verify T2 AUndefined w1)) = Some h.
Proof.
  intros T T2 w h d2 w1.
  assert (Hne : T2 <> T) by discriminate.
  assert (Hst : stored T w = Some h) by reflexivity.
  assert (Hst2 : stored T2 w1 = None) by reflexivity.
  assert (Hd2 : decode T2 = Some d2) by reflexivity.
  assert (Hp2 : payload d2 <> PNull) by discriminate.
  assert (Hfit : Lru.length h + entry_length (caught T2 w1, d2) T2
                 <= Lru.max (cache (this w)))
    by (vm_compute; discriminate).
  split; [repeat split; try assumption|].
  exact (served_entry_survives_the_next_write T T2 AUndefined AUndefined w h
           d2 eq_refl eq_refl Hne Hst Hst2 Hd2 Hp2 Hfit).
Defined.

End FurtherWitnesses.
